(** * consumer-sfmc: the Kafka consumer of web-ingestion

    A shallow embedding of [src/web-ingestion/app/consumer-sfmc.py]:
    the event router, the immediate forwarder, the two-minute bulk
    aggregator with its per-key timers, the CSV exporter, the poll loop
    and the signal handler.

    Python objects are modelled as follows.
    - A decoded JSON document is a [json] value; numbers are restricted to
      integers (floating point keys and cells are outside the model).
    - A [dict] coming from [json.loads] is an association list in insertion
      order ([event]).
    - The two module-level dictionaries [bulk_events] and [bulk_timers] are
      finite maps over the hash-equality classes of their keys ([key]).
    - A [threading.Timer] is a record in the table [threads]; [bulk_timers]
      holds indices into that table, so that [cancel] on the stored object
      and the thread that wakes up are one and the same timer.
    - Everything the program does to the outside (log records, HTTP posts,
      calls of the exporter, closing the consumer, ...) is appended to an
      effect trace, most recent effect first.
    - What the outside answers (HTTP outcomes, whether a file can be
      opened, names of the temporary files) is read from an environment
      [env]. *)

From stdpp Require Import gmap strings list fin_maps pretty.

(** ** JSON documents and Python dictionaries *)

#[warnings="-register-all"]
Inductive json :=
| JNull
| JBool (b : bool)
| JInt (z : Z)
| JStr (s : string)
| JArr (items : list json)
| JObj (fields : list (string * json)).

(** A decoded message body: the (name, value) pairs of a [dict]. *)
Definition event : Type := list (string * json).

Fixpoint dict_get (name : string) (d : event) : option json :=
  match d with
  | [] => None
  | (n, v) :: rest => if String.eqb n name then Some v else dict_get name rest
  end.

(** [d.get(name)]: [None] when the name is absent. *)
Definition py_get (name : string) (d : event) : json :=
  default JNull (dict_get name d).

(** [d.keys()] *)
Definition keys (d : event) : list string := map fst d.

(** [x == 'literal'] for a decoded JSON value [x]. *)
Definition eq_str (x : json) (lit : string) : bool :=
  match x with
  | JStr s => String.eqb s lit
  | _ => false
  end.

(** ** Dictionary keys

    Only hashable objects can index a dictionary: [list] and [dict] raise
    [TypeError].  Among the hashable ones [True == 1] and [False == 0], and
    equal objects hash alike, so they address the same entry. *)

Inductive scalar :=
| SNone
| SBool (b : bool)
| SInt (z : Z)
| SStr (s : string).

Definition as_scalar (j : json) : option scalar :=
  match j with
  | JNull => Some SNone
  | JBool b => Some (SBool b)
  | JInt z => Some (SInt z)
  | JStr s => Some (SStr s)
  | JArr _ | JObj _ => None
  end.

Inductive key :=
| KNone
| KInt (z : Z)
| KStr (s : string).

Definition key_of (s : scalar) : key :=
  match s with
  | SNone => KNone
  | SBool b => KInt (if b then 1 else 0)
  | SInt z => KInt z
  | SStr s => KStr s
  end.

#[export] Instance key_eq_dec : EqDecision key.
Proof. solve_decision. Defined.

Definition key_encode (k : key) : unit + (Z + string) :=
  match k with
  | KNone => inl tt
  | KInt z => inr (inl z)
  | KStr s => inr (inr s)
  end.

Definition key_decode (x : unit + (Z + string)) : key :=
  match x with
  | inl _ => KNone
  | inr (inl z) => KInt z
  | inr (inr s) => KStr s
  end.

#[export] Instance key_countable : Countable key.
Proof.
  apply (inj_countable' key_encode key_decode).
  intros k. destruct k; reflexivity.
Defined.

(** [str(x)], as the f-string [f'/tmp/{journey_id}.csv'] formats it. *)
Definition py_str (s : scalar) : string :=
  match s with
  | SNone => "None"
  | SBool true => "True"
  | SBool false => "False"
  | SInt z => pretty z
  | SStr s => s
  end.

(** ** Timers, files, exceptions, effects *)

(** [threading.Timer(interval, export_bulk_events, [args])], started at
    [t_started].  [t_finished] is the timer's [finished] flag, set by
    [cancel()] and after the callback returns; [t_woken] records that the
    thread has left its wait, after which it never runs again. *)
Record timer := Timer {
  t_interval : Z;
  t_args : scalar;
  t_started : Z;
  t_finished : bool;
  t_woken : bool
}.

Definition t_deadline (t : timer) : Z := (t_started t + t_interval t)%Z.

(** A timer that is still scheduled: started, neither cancelled nor run. *)
Definition live (t : timer) : Prop :=
  t_finished t = false ∧ t_woken t = false.

Definition liveb (t : timer) : bool :=
  negb (t_finished t) && negb (t_woken t).

Definition set_finished (t : timer) : timer :=
  Timer (t_interval t) (t_args t) (t_started t) true (t_woken t).

Definition set_woken (t : timer) : timer :=
  Timer (t_interval t) (t_args t) (t_started t) (t_finished t) true.

Inductive csv_line :=
| HeaderLine (names : list string)
| DataLine (cells : list json).

Inductive fcontent :=
| TextFile (s : string)
| CsvFile (lines : list csv_line).

Inductive exn :=
| TypeError
| AttributeError
| ValueError
| IndexError
| NameError (name : string)
| OSError (path : string)
| FileNotFoundError (path : string)
| ConnectionError
| UnicodeDecodeError
| JSONDecodeError
| KafkaException (code : Z)
| RuntimeError
| SystemExit (status : Z).

(** [except Exception] does not catch [SystemExit]. *)
Definition is_Exception (e : exn) : bool :=
  match e with
  | SystemExit _ => false
  | _ => true
  end.

Inductive level := DEBUG | INFO | WARNING | ERROR.

Inductive log_msg :=
| MsgEndOfPartition
| MsgReceived (event_data : json)
| MsgSent
| MsgSfmcError (status_code : Z) (text : string)
| MsgConsumeError (e : exn).

Inductive effect :=
| Log (lvl : level) (m : log_msg)
| Print (s : string)
| HttpPost (token : option string) (body : json)
| Append (k : key) (e : event)
| Detach (k : key) (events : list event)
| GenerateCsv (journey_id : scalar) (events : list event)
| ConsumerClose
| Unlink (path : string).

Inductive http_result :=
| Response (status_code : Z) (text : string)
| NetworkFailure.

(** ** Environment and program state *)

Record env := Env {
  (** outcome of the n-th call of [requests.post] *)
  post_outcome : nat → http_result;
  (** whether [open(path, 'w')] succeeds *)
  can_open : string → bool;
  (** the attribute [KafkaException._PARTITION_EOF], if the class has it *)
  partition_eof : option Z;
  (** whether [Consumer.close()] raises on a consumer already closed *)
  close_raises_when_closed : bool;
  temp_cafile : string;
  temp_certfile : string;
  temp_keyfile : string
}.

Record world := World {
  bulk_events : gmap key (list event);
  bulk_timers : gmap key nat;
  threads : list timer;
  clock : Z;
  fs : gmap string fcontent;
  consumer_closed : bool;
  sfmc_access_token : option string;
  trace : list effect
}.

Definition with_bulk_events (m : gmap key (list event)) (w : world) : world :=
  World m (bulk_timers w) (threads w) (clock w) (fs w)
        (consumer_closed w) (sfmc_access_token w) (trace w).

Definition with_bulk_timers (m : gmap key nat) (w : world) : world :=
  World (bulk_events w) m (threads w) (clock w) (fs w)
        (consumer_closed w) (sfmc_access_token w) (trace w).

Definition with_threads (l : list timer) (w : world) : world :=
  World (bulk_events w) (bulk_timers w) l (clock w) (fs w)
        (consumer_closed w) (sfmc_access_token w) (trace w).

Definition with_clock (t : Z) (w : world) : world :=
  World (bulk_events w) (bulk_timers w) (threads w) t (fs w)
        (consumer_closed w) (sfmc_access_token w) (trace w).

Definition with_fs (f : gmap string fcontent) (w : world) : world :=
  World (bulk_events w) (bulk_timers w) (threads w) (clock w) f
        (consumer_closed w) (sfmc_access_token w) (trace w).

Definition with_consumer_closed (b : bool) (w : world) : world :=
  World (bulk_events w) (bulk_timers w) (threads w) (clock w) (fs w)
        b (sfmc_access_token w) (trace w).

Definition with_trace (tr : list effect) (w : world) : world :=
  World (bulk_events w) (bulk_timers w) (threads w) (clock w) (fs w)
        (consumer_closed w) (sfmc_access_token w) tr.

(** ** A state-and-exception monad

    A raised exception keeps the state reached so far: Python does not roll
    back mutations. *)

Inductive outcome (A : Type) :=
| Ok (a : A)
| Raise (e : exn).
Arguments Ok {A} a.
Arguments Raise {A} e.

Definition M (A : Type) : Type := world → outcome A * world.

Definition ret {A} (a : A) : M A := λ w, (Ok a, w).
Definition raise {A} (e : exn) : M A := λ w, (Raise e, w).
Definition bind {A B} (m : M A) (f : A → M B) : M B :=
  λ w, match m w with
       | (Ok a, w') => f a w'
       | (Raise e, w') => (Raise e, w')
       end.
Definition act (f : world → world) : M unit := λ w, (Ok tt, f w).
Definition gets {A} (f : world → A) : M A := λ w, (Ok (f w), w).

Notation "x <- m ;; k" := (bind m (λ x, k))
  (at level 100, m at next level, right associativity).
Notation "m ;; k" := (bind m (λ _, k))
  (at level 100, right associativity).

Definition emit (e : effect) : M unit :=
  act (λ w, with_trace (e :: trace w) w).

Definition logging (lvl : level) (m : log_msg) : M unit := emit (Log lvl m).

Fixpoint for_each {A} (l : list A) (body : A → M unit) : M unit :=
  match l with
  | [] => ret tt
  | x :: rest => body x ;; for_each rest body
  end.

Section Program.

Variable E : env.

(** ** Window aggregator *)

(** [threading.Timer(interval, export_bulk_events, [journey_id])] followed
    by [.start()]: a new entry of the thread table, waiting from now on. *)
Definition timer_start (interval : Z) (journey_id : scalar) : M nat :=
  λ w, (Ok (length (threads w)),
        with_threads
          (threads w ++ [Timer interval journey_id (clock w) false false]) w).

(** [timer.cancel()], and the [finished.set()] that ends [Timer.run] *)
Definition timer_cancel (i : nat) : M unit :=
  act (λ w, with_threads (alter set_finished i (threads w)) w).

(** [bulk_events[journey_id].append(event_data)] on a [defaultdict(list)] *)
Definition buffer_append (k : key) (event_data : event) : M unit :=
  act (λ w, with_bulk_events
              (<[k := default [] (bulk_events w !! k) ++ [event_data]]>
                 (bulk_events w)) w) ;;
  emit (Append k event_data).

Definition add_bulk_event (journey_id : json) (event_data : event) : M unit :=
  match as_scalar journey_id with
  | None => raise TypeError
  | Some s =>
      let k := key_of s in
      present <- gets (λ w, bool_decide (is_Some (bulk_events w !! k))) ;;
      (if present : bool then ret tt
       else
         act (λ w, with_bulk_events (<[k := []]> (bulk_events w)) w) ;;
         i <- timer_start 120 s ;;
         act (λ w, with_bulk_timers (<[k := i]> (bulk_timers w)) w)) ;;
      buffer_append k event_data
  end.

(** The critical section of [export_bulk_events]: both [pop]s and the
    [cancel], under [bulk_lock]. *)
Definition detach (journey_id : scalar) : M (list event) :=
  let k := key_of journey_id in
  events <- gets (λ w, default [] (bulk_events w !! k)) ;;
  act (λ w, with_bulk_events (delete k (bulk_events w)) w) ;;
  registered <- gets (λ w, bulk_timers w !! k) ;;
  match registered with
  | Some i =>
      act (λ w, with_bulk_timers (delete k (bulk_timers w)) w) ;;
      timer_cancel i
  | None => ret tt
  end ;;
  emit (Detach k events) ;;
  ret events.

(** ** Batch exporter *)

Definition csv_path (journey_id : scalar) : string :=
  "/tmp/" +:+ py_str journey_id +:+ ".csv".

(** [open(path, 'w', newline='')]: creates or truncates the file. *)
Definition open_w (path : string) : M unit :=
  if can_open E path
  then act (λ w, with_fs (<[path := CsvFile []]> (fs w)) w)
  else raise (OSError path).

Definition append_line (l : csv_line) (c : fcontent) : fcontent :=
  match c with
  | CsvFile ls => CsvFile (ls ++ [l])
  | TextFile s => TextFile s
  end.

Definition write_line (path : string) (l : csv_line) : M unit :=
  act (λ w, with_fs (alter (append_line l) path (fs w)) w).

(** [csv.DictWriter._dict_to_list] with the default [extrasaction='raise']
    and [restval='']. *)
Definition row_cells (fieldnames : list string) (rowdict : event)
  : list json :=
  map (λ n, default (JStr "") (dict_get n rowdict)) fieldnames.

Definition dict_to_list (fieldnames : list string) (rowdict : event)
  : outcome (list json) :=
  if forallb (λ n, bool_decide (n ∈ fieldnames)) (keys rowdict)
  then Ok (row_cells fieldnames rowdict)
  else Raise ValueError.

Definition writerow (path : string) (fieldnames : list string)
    (rowdict : event) : M unit :=
  match dict_to_list fieldnames rowdict with
  | Ok cells => write_line path (DataLine cells)
  | Raise e => raise e
  end.

Definition generate_csv (journey_id : scalar) (events : list event)
  : M string :=
  emit (GenerateCsv journey_id events) ;;
  let csv_file_path := csv_path journey_id in
  open_w csv_file_path ;;
  match events with
  | [] => raise IndexError
  | first :: _ =>
      let fieldnames := keys first in
      write_line csv_file_path (HeaderLine fieldnames) ;;
      for_each events (writerow csv_file_path fieldnames) ;;
      ret csv_file_path
  end.

(** The definition of [upload_to_s3] is commented out in the source, so
    the name is unbound when the call is evaluated. *)
Definition upload_to_s3 (file_path : string) (journey_id : scalar) : M unit :=
  raise (NameError "upload_to_s3").

Definition export_bulk_events (journey_id : scalar) : M unit :=
  events <- detach journey_id ;;
  match events with
  | [] => ret tt
  | _ :: _ =>
      csv_file_path <- generate_csv journey_id events ;;
      upload_to_s3 csv_file_path journey_id
  end.

(** [Timer.run]: once the wait is over, call the function unless the timer
    was cancelled, then set [finished]. *)
Definition timer_run (i : nat) : M unit :=
  cur <- gets (λ w, threads w !! i) ;;
  match cur with
  | None => ret tt
  | Some t =>
      act (λ w, with_threads (alter set_woken i (threads w)) w) ;;
      (if t_finished t then ret tt else export_bulk_events (t_args t)) ;;
      timer_cancel i
  end.

(** ** Immediate forwarder and router *)

Definition is_post (e : effect) : bool :=
  match e with
  | HttpPost _ _ => true
  | _ => false
  end.

Definition send_to_sfmc (event_data : json) : M unit :=
  n <- gets (λ w, length (filter (λ e, is_post e = true) (trace w))) ;;
  token <- gets sfmc_access_token ;;
  emit (HttpPost token event_data) ;;
  match post_outcome E n with
  | NetworkFailure => raise ConnectionError
  | Response status_code text =>
      if (status_code =? 200)%Z then logging INFO MsgSent
      else logging ERROR (MsgSfmcError status_code text)
  end.

Definition handle_event (event_data : json) : M unit :=
  match event_data with
  | JObj d =>
      let event_type := py_get "type" d in
      let journey_id := py_get "JourneyID" d in
      if eq_str event_type "stream" then send_to_sfmc event_data
      else if eq_str event_type "bulk" then add_bulk_event journey_id d
      else ret tt
  | _ => raise AttributeError
  end.

(** ** Poll loop *)

(** The bytes of a message, by what [.decode('utf-8')] and [json.loads]
    make of them. *)
Inductive payload :=
| BadUtf8
| BadJson
| Json (j : json).

Inductive poll_result :=
| PollNone
| PollError (code : Z)
| PollMessage (p : payload).

Definition json_loads (p : payload) : M json :=
  match p with
  | BadUtf8 => raise UnicodeDecodeError
  | BadJson => raise JSONDecodeError
  | Json j => ret j
  end.

Definition consumer_close : M unit :=
  already <- gets consumer_closed ;;
  emit ConsumerClose ;;
  if already && close_raises_when_closed E then raise RuntimeError
  else act (with_consumer_closed true).

(** One turn of the [while True] body. *)
Definition loop_body (msg : poll_result) : M unit :=
  match msg with
  | PollNone => ret tt
  | PollError code =>
      match partition_eof E with
      | None => raise AttributeError
      | Some eof =>
          if (code =? eof)%Z then logging DEBUG MsgEndOfPartition
          else raise (KafkaException code)
      end
  | PollMessage p =>
      event_data <- json_loads p ;;
      logging INFO (MsgReceived event_data) ;;
      handle_event event_data
  end.

Inductive loop_status :=
| Polling
| Stopped.

(** [consume_messages] run against the results of its first polls.  The
    loop is endless: when the given polls are used up it is still
    [Polling]; it is [Stopped] once an exception has left the [while]. *)
Definition consume_messages (polls : list poll_result) : M loop_status :=
  λ w, match for_each polls loop_body w with
       | (Ok _, w') => (Ok Polling, w')
       | (Raise e, w') =>
           if is_Exception e
           then (logging ERROR (MsgConsumeError e) ;;
                 consumer_close ;;
                 ret Stopped) w'
           else (consumer_close ;; raise e) w'
       end.

(** ** Shutdown *)

Definition os_unlink (path : string) : M unit :=
  present <- gets (λ w, bool_decide (is_Some (fs w !! path))) ;;
  if present : bool
  then act (λ w, with_fs (delete path (fs w)) w) ;; emit (Unlink path)
  else raise (FileNotFoundError path).

Definition sys_exit (status : Z) : M unit := raise (SystemExit status).

Definition signal_handler : M unit :=
  emit (Print "Signal received, shutting down...") ;;
  consumer_close ;;
  os_unlink (temp_cafile E) ;;
  os_unlink (temp_certfile E) ;;
  os_unlink (temp_keyfile E) ;;
  sys_exit 0.

(** The handler statement by statement, to place a second delivery between
    two of them. *)
Definition handler_steps : list (M unit) :=
  [ emit (Print "Signal received, shutting down...");
    consumer_close;
    os_unlink (temp_cafile E);
    os_unlink (temp_certfile E);
    os_unlink (temp_keyfile E);
    sys_exit 0 ].

Definition run_steps (steps : list (M unit)) : M unit :=
  for_each steps (λ s, s).

(** A second signal delivered after the first handler has executed [n]
    statements: Python runs the handler again, nested in the interrupted
    frame, and an exception it raises propagates through that frame. *)
Definition second_signal_after (n : nat) : M unit :=
  run_steps (take n handler_steps) ;;
  signal_handler ;;
  run_steps (drop n handler_steps).

(** What the process exits with when the main thread ends by an exception:
    [SystemExit(n)] gives [n], any other exception a traceback and 1. *)
Definition exit_status (o : outcome unit) : option Z :=
  match o with
  | Ok _ => None
  | Raise (SystemExit n) => Some n
  | Raise _ => Some 1%Z
  end.

(** ** Schedules

    The aggregator is driven by two kinds of steps, each atomic with
    respect to the two dictionaries because both run under [bulk_lock]:
    a call of [add_bulk_event] by the consumer thread, and a timer thread
    that wakes up and runs its callback.  A schedule lists such steps with
    the time at which each takes place.  Time does not go backwards, and a
    timer wakes up no earlier than its deadline.  The export that follows
    the critical section of a flush works on the detached list and on the
    files only, so it is run within the same step. *)

Inductive label :=
| Arrive (t : Z) (journey_id : json) (event_data : event)
| Fire (t : Z) (i : nat).

Definition step (l : label) (w : world) : option world :=
  match l with
  | Arrive t journey_id event_data =>
      if bool_decide (clock w ≤ t)%Z
      then Some (add_bulk_event journey_id event_data (with_clock t w)).2
      else None
  | Fire t i =>
      match threads w !! i with
      | Some tm =>
          if bool_decide (clock w ≤ t)%Z && liveb tm
             && bool_decide (t_deadline tm ≤ t)%Z
          then Some (timer_run i (with_clock t w)).2
          else None
      | None => None
      end
  end.

Fixpoint exec (sched : list label) (w : world) : option world :=
  match sched with
  | [] => Some w
  | l :: rest =>
      match step l w with
      | Some w' => exec rest w'
      | None => None
      end
  end.

End Program.

(** The program state right after start-up: nothing buffered, no timer,
    nothing done yet. *)
Definition initial (w : world) : Prop :=
  bulk_events w = ∅ ∧ bulk_timers w = ∅ ∧ threads w = [] ∧ trace w = [].

Definition reachable (E : env) (w : world) : Prop :=
  ∃ w0 sched, initial w0 ∧ exec E sched w0 = Some w.

(** ** Reading the trace *)

(** The events buffered for [k] since the last completed flush of [k],
    oldest first. *)
Fixpoint pending (k : key) (tr : list effect) : list event :=
  match tr with
  | [] => []
  | Append k' e :: older =>
      if bool_decide (k' = k) then pending k older ++ [e] else pending k older
  | Detach k' _ :: older =>
      if bool_decide (k' = k) then [] else pending k older
  | _ :: older => pending k older
  end.

Definition export_for (k : key) (e : effect) : option (list event) :=
  match e with
  | GenerateCsv journey_id events =>
      if bool_decide (key_of journey_id = k) then Some events else None
  | _ => None
  end.

(** The event lists handed to the exporter for [k], latest first. *)
Definition exports_of (k : key) (tr : list effect) : list (list event) :=
  omap (export_for k) tr.

Definition arrival_for (k : key) (l : label) : option (Z * event) :=
  match l with
  | Arrive t journey_id event_data =>
      match as_scalar journey_id with
      | Some s => if bool_decide (key_of s = k) then Some (t, event_data)
                  else None
      | None => None
      end
  | Fire _ _ => None
  end.

(** The bulk events of a schedule that are buffered under [k], with their
    arrival times, in arrival order. *)
Definition arrivals (k : key) (sched : list label) : list (Z * event) :=
  omap (arrival_for k) sched.

(** Every timer whose deadline has passed has run. *)
Definition timers_up_to_date (w : world) : Prop :=
  ∀ i t, threads w !! i = Some t → live t → (clock w < t_deadline t)%Z.

(** ** The aggregator invariant *)

Definition window_iff_pending (w : world) : Prop :=
  ∀ k, is_Some (bulk_events w !! k) ↔ pending k (trace w) ≠ [].

(** A dictionary holds one value per key. *)
Definition one_window_per_key (w : world) : Prop :=
  ∀ k b1 b2, bulk_events w !! k = Some b1 → bulk_events w !! k = Some b2 →
             b1 = b2.

Definition one_timer_per_key (w : world) : Prop :=
  ∀ i j ti tj,
    threads w !! i = Some ti → threads w !! j = Some tj →
    live ti → live tj → key_of (t_args ti) = key_of (t_args tj) → i = j.

Definition window_invariant (w : world) : Prop :=
  window_iff_pending w ∧ one_window_per_key w ∧ one_timer_per_key w.

(** The inductive strengthening: a buffer holds exactly the pending events
    of its key, the two dictionaries have the same keys, and the timer
    registered for a key is the one scheduled timer of that key. *)
Record Inv (w : world) : Prop := {
  inv_buffer : ∀ k buf,
    bulk_events w !! k = Some buf ↔ buf = pending k (trace w) ∧ buf ≠ [];
  inv_dom : ∀ k,
    is_Some (bulk_timers w !! k) ↔ is_Some (bulk_events w !! k);
  inv_registered : ∀ k i,
    bulk_timers w !! k = Some i →
    ∃ t, threads w !! i = Some t ∧ live t ∧ key_of (t_args t) = k;
  inv_live : ∀ i t,
    threads w !! i = Some t → live t →
    bulk_timers w !! key_of (t_args t) = Some i
}.

(** ** Auxiliary notions *)

Definition decode_error (p : payload) : exn :=
  match p with
  | BadUtf8 => UnicodeDecodeError
  | BadJson | Json _ => JSONDecodeError
  end.

Definition is_close (e : effect) : bool :=
  match e with
  | ConsumerClose => true
  | _ => false
  end.

(** How many times [consumer.close()] has been called. *)
Definition closes (tr : list effect) : nat :=
  length (filter (λ e, is_close e = true) tr).

(** All arrivals fall strictly within 120 seconds of the first. *)
Definition within_window (arr : list (Z * event)) : Prop :=
  match arr with
  | [] => True
  | (t1, _) :: rest => Forall (λ te, (te.1 < t1 + 120)%Z) rest
  end.

(** Where the window of [k] stands after a schedule that started in [w0]
    without one, given the arrivals for [k] so far: not yet opened; open,
    holding all of them, its timer due 120 seconds after the first; or
    flushed, all of them exported in one piece. *)
Definition tracking (k : key) (w0 : world) (arr : list (Z * event))
    (w : world) : Prop :=
  match arr with
  | [] =>
      bulk_events w !! k = None ∧
      exports_of k (trace w) = exports_of k (trace w0)
  | (t1, e1) :: rest =>
      (bulk_events w !! k = Some (e1 :: rest.*2) ∧
       (∀ i tm, bulk_timers w !! k = Some i → threads w !! i = Some tm →
                t_deadline tm = (t1 + 120)%Z) ∧
       exports_of k (trace w) = exports_of k (trace w0))
      ∨
      (bulk_events w !! k = None ∧
       (t1 + 120 ≤ clock w)%Z ∧
       exports_of k (trace w) = (e1 :: rest.*2) :: exports_of k (trace w0))
  end.

(** ** Sample data

    A concrete environment and concrete states on which the statements
    below are exercised: the first post meets a network failure and all
    later ones are answered 500; every file can be opened; the library
    tolerates a second [close()]. *)

Definition env0 : env :=
  Env (λ n, match n with
            | O => NetworkFailure
            | S _ => Response 500 "Internal Server Error"
            end)
      (λ _, true) (Some (-191)%Z) false
      "/tmp/tmp_ca" "/tmp/tmp_cert" "/tmp/tmp_key".

(** The state in which the consumer thread is started. *)
Definition boot : world :=
  World ∅ ∅ [] 0
        (<["/tmp/tmp_ca" := TextFile "ca"]>
           (<["/tmp/tmp_cert" := TextFile "cert"]>
              (<["/tmp/tmp_key" := TextFile "key"]> ∅)))
        false (Some "token") [].

Definition click (kind journey : string) (n : Z) : event :=
  [("type", JStr kind); ("JourneyID", JStr journey); ("n", JInt n)].


(** A bulk event without a [JourneyID]. *)
Definition anonymous_click (n : Z) : event :=
  [("type", JStr "bulk"); ("n", JInt n)].

(** Key [J1] receives bulk events at 0 s, 30 s and 90 s; its timer wakes
    up at 120 s. *)
Definition sched_j1 : list label :=
  [ Arrive 0 (JStr "J1") (click "bulk" "J1" 0);
    Arrive 30 (JStr "J1") (click "bulk" "J1" 1);
    Arrive 90 (JStr "J1") (click "bulk" "J1" 2);
    Fire 120 0 ].

Definition after_j1 : world := default boot (exec env0 sched_j1 boot).

(** [J1] has an open window holding one event. *)
Definition open_j1 : world :=
  (add_bulk_event (JStr "J1") (click "bulk" "J1" 0) boot).2.


(** ** The SFMC access token

    [authenticate_with_sfmc] posts the client credentials to the token
    endpoint.  The answer is described by what the function looks at: whether
    the post came back at all, whether the body parsed as JSON, the status
    code, and the item under ['access_token'] ([None] for a JSON [null],
    otherwise the text [str()] gives it, which is all the [Bearer] header
    uses).  An exception is represented by its text, which is all its
    handlers print. *)

Inductive auth_response :=
| AuthUnreachable (err : string)
| AuthNotJson (status_code : Z) (err : string)
| AuthJson (status_code : Z) (repr : string)
           (access_token : string + option string).

Definition with_sfmc_access_token (tok : option string) (w : world) : world :=
  World (bulk_events w) (bulk_timers w) (threads w) (clock w) (fs w)
        (consumer_closed w) tok (trace w).

Definition authenticate_with_sfmc (response : auth_response) (w : world)
  : (string + unit) * world :=
  match response with
  | AuthUnreachable err => (inl err, w)
  | AuthNotJson _ err => (inl err, w)
  | AuthJson status_code repr item =>
      if (status_code =? 200)%Z then
        match item with
        | inr tok =>
            (inr tt,
             with_trace (Print "SFMC access token obtained successfully"
                         :: trace w)
               (with_sfmc_access_token tok w))
        | inl err => (inl err, w)
        end
      else (inl ("Error obtaining SFMC access token: " +:+ repr), w)
  end.

(** [renew_sfmc_token_periodically] over the answers its successive ticks
    get; the sleep between two ticks changes nothing. *)
Fixpoint renew_sfmc_token_periodically (ticks : list auth_response)
    (w : world) : world :=
  match ticks with
  | [] => w
  | response :: rest =>
      match authenticate_with_sfmc response w with
      | (inr _, w1) => renew_sfmc_token_periodically rest w1
      | (inl e, w1) =>
          renew_sfmc_token_periodically rest
            (with_trace (Print ("Error renewing SFMC access token: " +:+ e)
                         :: trace w1) w1)
      end
  end.

(** The token a response grants, if it grants one. *)
Definition granted (response : auth_response) : option (option string) :=
  match response with
  | AuthJson status_code _ (inr tok) =>
      if (status_code =? 200)%Z then Some tok else None
  | _ => None
  end.

(** ** Further notions *)

Definition is_idle (msg : poll_result) : bool :=
  match msg with
  | PollNone => true
  | _ => false
  end.

(** All the events of [k] that have left its windows, followed by those
    still buffered, oldest first. *)
Definition accounted (k : key) (w : world) : list event :=
  concat (reverse (exports_of k (trace w)))
  ++ default [] (bulk_events w !! k).

Definition exports_nonempty (tr : list effect) : Prop :=
  ∀ journey_id events, GenerateCsv journey_id events ∈ tr → events ≠ [].


Definition is_data_line (width : nat) (l : csv_line) : Prop :=
  ∃ cells, l = DataLine cells ∧ length cells = width.

(** * Properties *)

(** ** Elementary facts *)

Lemma eq_str_true x lit : eq_str x lit = true → x = JStr lit.
Proof.
  destruct x; simpl; try discriminate.
  intros H. apply String.eqb_eq in H. by subst.
Qed.

Lemma eq_str_bulk_not_stream x :
  eq_str x "bulk" = true → eq_str x "stream" = false.
Proof. intros H. apply eq_str_true in H. by subst. Qed.

(** ** [add_bulk_event], case by case *)

Lemma add_bulk_event_unhashable journey_id event_data w :
  as_scalar journey_id = None →
  add_bulk_event journey_id event_data w = (Raise TypeError, w).
Proof. intros H. unfold add_bulk_event. by rewrite H. Qed.

Lemma add_bulk_event_open journey_id s event_data buf w :
  as_scalar journey_id = Some s →
  bulk_events w !! key_of s = Some buf →
  add_bulk_event journey_id event_data w =
    (Ok tt,
     World (<[key_of s := buf ++ [event_data]]> (bulk_events w))
           (bulk_timers w) (threads w) (clock w) (fs w)
           (consumer_closed w) (sfmc_access_token w)
           (Append (key_of s) event_data :: trace w)).
Proof.
  intros Hs Hbuf. unfold add_bulk_event. rewrite Hs.
  unfold bind, gets, buffer_append, bind, act, emit, act, ret. simpl.
  rewrite bool_decide_eq_true_2 by (rewrite Hbuf; eauto).
  simpl. by rewrite Hbuf.
Qed.

Lemma add_bulk_event_new journey_id s event_data w :
  as_scalar journey_id = Some s →
  bulk_events w !! key_of s = None →
  add_bulk_event journey_id event_data w =
    (Ok tt,
     World (<[key_of s := [event_data]]> (bulk_events w))
           (<[key_of s := length (threads w)]> (bulk_timers w))
           (threads w ++ [Timer 120 s (clock w) false false])
           (clock w) (fs w) (consumer_closed w) (sfmc_access_token w)
           (Append (key_of s) event_data :: trace w)).
Proof.
  intros Hs Hbuf. unfold add_bulk_event. rewrite Hs.
  unfold bind, gets, buffer_append, bind, act, emit, act, ret, timer_start.
  simpl.
  rewrite bool_decide_eq_false_2 by (rewrite Hbuf; by intros [? ?]).
  simpl. rewrite lookup_insert_eq. simpl. by rewrite insert_insert_eq.
Qed.

(** Whatever the case, the only effect is at most one [Append]. *)
Lemma add_bulk_event_trace journey_id event_data w :
  trace (add_bulk_event journey_id event_data w).2 = trace w ∨
  ∃ k, trace (add_bulk_event journey_id event_data w).2
       = Append k event_data :: trace w.
Proof.
  destruct (as_scalar journey_id) as [s|] eqn:Hs.
  - right. exists (key_of s).
    destruct (bulk_events w !! key_of s) as [buf|] eqn:Hb.
    + by rewrite (add_bulk_event_open _ s _ buf).
    + by rewrite (add_bulk_event_new _ s).
  - left. by rewrite add_bulk_event_unhashable.
Qed.

(** The forwarder leaves both dictionaries and the timers alone. *)
Lemma send_to_sfmc_frame E event_data w :
  let w' := (send_to_sfmc E event_data w).2 in
  bulk_events w' = bulk_events w ∧ bulk_timers w' = bulk_timers w ∧
  threads w' = threads w ∧ fs w' = fs w ∧
  ∃ logged, trace w' =
    logged ++ HttpPost (sfmc_access_token w) event_data :: trace w ∧
    Forall (λ e, ∃ lvl m, e = Log lvl m) logged.
Proof.
  unfold send_to_sfmc, bind, gets, emit, logging, emit, act, raise. simpl.
  destruct (post_outcome E _) as [status text|]; simpl.
  - destruct (status =? 200)%Z; simpl; repeat split; try done.
    + exists [Log INFO MsgSent]. split; [done|]. repeat constructor. eauto.
    + exists [Log ERROR (MsgSfmcError status text)]. split; [done|].
      repeat constructor. eauto.
  - repeat split; try done. exists []. split; [done|]. constructor.
Qed.

(** ** C7 *)

(** C7. A bulk event whose key already has an open window is appended to
    that key's buffer and nothing else changes: the timer table and the
    timer registered for the key are the same (the deadline is neither
    extended nor replaced), the buffers of all other keys are the same, and
    so are the clock, the files and the consumer. *)
Theorem bulk_event_on_open_window E d s buf w :
  eq_str (py_get "type" d) "bulk" = true →
  as_scalar (py_get "JourneyID" d) = Some s →
  bulk_events w !! key_of s = Some buf →
  let w' := (handle_event E (JObj d) w).2 in
  handle_event E (JObj d) w =
    (Ok tt,
     World (<[key_of s := buf ++ [d]]> (bulk_events w))
           (bulk_timers w) (threads w) (clock w) (fs w)
           (consumer_closed w) (sfmc_access_token w)
           (Append (key_of s) d :: trace w)) ∧
  bulk_events w' !! key_of s = Some (buf ++ [d]) ∧
  (∀ k, k ≠ key_of s → bulk_events w' !! k = bulk_events w !! k) ∧
  bulk_timers w' = bulk_timers w ∧
  threads w' = threads w.
Proof.
  intros Hty Hs Hbuf w'. subst w'.
  unfold handle_event.
  rewrite (eq_str_bulk_not_stream _ Hty), Hty.
  rewrite (add_bulk_event_open _ s d buf w Hs Hbuf). simpl.
  split; [done|]. split; [apply lookup_insert_eq|].
  split; [|done]. intros k Hk. by apply lookup_insert_ne.
Qed.

(** ** C5 and C8: the router *)

Lemma eq_str_false x lit : x ≠ JStr lit → eq_str x lit = false.
Proof.
  intros H. destruct (eq_str x lit) eqn:Heq; [|done].
  by apply eq_str_true in Heq.
Qed.

Lemma loop_body_message E j w :
  loop_body E (PollMessage (Json j)) w =
  handle_event E j (with_trace (Log INFO (MsgReceived j) :: trace w) w).
Proof. reflexivity. Qed.

(** C5, as the code has it.  An event whose [type] is neither ["stream"]
    nor ["bulk"], or is missing, is dropped without a word: [handle_event]
    returns normally and leaves the whole state, trace included, as it
    was -- nothing is forwarded, nothing is buffered and no record of any
    level is logged.  The only record of such a message is the INFO record
    that the loop writes for every decoded message before routing it. *)
Theorem unknown_type_dropped_silently E d w :
  py_get "type" d ≠ JStr "stream" →
  py_get "type" d ≠ JStr "bulk" →
  handle_event E (JObj d) w = (Ok tt, w) ∧
  loop_body E (PollMessage (Json (JObj d))) w =
    (Ok tt, with_trace (Log INFO (MsgReceived (JObj d)) :: trace w) w).
Proof.
  intros Hs Hb.
  assert (∀ w0, handle_event E (JObj d) w0 = (Ok tt, w0)) as H.
  { intros w0. unfold handle_event.
    by rewrite (eq_str_false _ _ Hs), (eq_str_false _ _ Hb). }
  split; [apply H|]. rewrite loop_body_message. apply H.
Qed.

(** C8. The two routes exclude each other.  Handling a stream event
    leaves both dictionaries and the timers as they were and adds no
    [Append] to the trace; handling a bulk event adds no [HttpPost]. *)
Theorem routes_are_exclusive E d w :
  let w' := (handle_event E (JObj d) w).2 in
  (py_get "type" d = JStr "stream" →
   bulk_events w' = bulk_events w ∧ bulk_timers w' = bulk_timers w ∧
   threads w' = threads w ∧
   ∀ k e, Append k e ∈ trace w' → Append k e ∈ trace w) ∧
  (py_get "type" d = JStr "bulk" →
   ∀ token body, HttpPost token body ∈ trace w' →
                 HttpPost token body ∈ trace w).
Proof.
  intros w'. subst w'. split; intros Hty; unfold handle_event; rewrite Hty;
    simpl.
  - destruct (send_to_sfmc_frame E (JObj d) w)
      as (He & Ht & Hth & _ & logged & Htr & Hlog).
    repeat split; try done.
    intros k e. rewrite Htr. rewrite elem_of_app, elem_of_cons.
    intros [Hin|[Hin|Hin]]; [|done..].
    rewrite Forall_forall in Hlog.
    destruct (Hlog _ Hin) as (lvl & m & Heq). done.
  - intros token body.
    destruct (add_bulk_event_trace (py_get "JourneyID" d) d w)
      as [->|[k ->]]; [done|].
    rewrite elem_of_cons. intros [Hin|Hin]; done.
Qed.

(** ** The poll loop *)

Lemma for_each_app {A} (l1 l2 : list A) (body : A → M unit) w :
  for_each (l1 ++ l2) body w =
  match for_each l1 body w with
  | (Ok _, w1) => for_each l2 body w1
  | (Raise e, w1) => (Raise e, w1)
  end.
Proof.
  revert w. induction l1 as [|x l1 IH]; intros w; simpl.
  - done.
  - unfold bind. destruct (body x w) as [[[]|e] w1]; [apply IH|done].
Qed.

Lemma for_each_one {A} (x : A) (body : A → M unit) w :
  for_each [x] body w =
  match body x w with
  | (Ok _, w1) => (Ok tt, w1)
  | (Raise e, w1) => (Raise e, w1)
  end.
Proof. reflexivity. Qed.

(** Polls that pass without an exception do not end the loop: it goes on
    with the following ones. *)
Lemma consume_messages_app E before after w w1 :
  for_each before (loop_body E) w = (Ok tt, w1) →
  consume_messages E (before ++ after) w = consume_messages E after w1.
Proof.
  intros H. unfold consume_messages. by rewrite for_each_app, H.
Qed.

(** A poll that raises ends it, whatever is polled afterwards. *)
Lemma consume_messages_raise E msg after e w w1 :
  is_Exception e = true →
  loop_body E msg w = (Raise e, w1) →
  consume_messages E (msg :: after) w =
  (logging ERROR (MsgConsumeError e) ;; consumer_close E ;; ret Stopped) w1.
Proof.
  intros He H. unfold consume_messages. simpl. unfold bind at 1.
  by rewrite H, He.
Qed.

Lemma posts_skip_log lvl m tr :
  filter (λ e, is_post e = true) (Log lvl m :: tr) =
  filter (λ e, is_post e = true) tr.
Proof. reflexivity. Qed.

(** C3, as the code has it.  The [try] encloses the whole [while]: an
    undecodable payload raises out of the loop.  The messages polled
    before it have been processed normally (state [w1]); the failure is
    logged at ERROR level, the consumer is closed, and the loop is over:
    whatever is polled after the malformed message is not processed. *)
Theorem malformed_payload_ends_loop E before after p w w1 :
  p = BadUtf8 ∨ p = BadJson →
  for_each before (loop_body E) w = (Ok tt, w1) →
  let end_of_loop :=
    (logging ERROR (MsgConsumeError (decode_error p)) ;;
     consumer_close E ;; ret Stopped) w1 in
  consume_messages E (before ++ PollMessage p :: after) w = end_of_loop ∧
  end_of_loop.1 ≠ Ok Polling ∧
  trace end_of_loop.2 =
    ConsumerClose :: Log ERROR (MsgConsumeError (decode_error p)) :: trace w1.
Proof.
  intros Hp Hbefore. simpl. split.
  - rewrite (consume_messages_app _ _ _ _ _ Hbefore).
    apply consume_messages_raise; by destruct Hp as [-> | ->].
  - unfold logging, consumer_close, emit, bind, gets, act, ret, raise. simpl.
    destruct (consumer_closed w1 && close_raises_when_closed E); simpl; done.
Qed.

(** C4, as the code has it.  A stream event is posted exactly once.  A
    response other than 200 is logged at ERROR level and the loop goes on
    with the polls that follow.  A network failure is an exception of
    [requests.post]: it leaves the loop, whose handler logs it and closes
    the consumer, and the polls that follow are not processed. *)
Theorem forward_failure E before after d w w1 :
  py_get "type" d = JStr "stream" →
  for_each before (loop_body E) w = (Ok tt, w1) →
  let posted :=
    with_trace (HttpPost (sfmc_access_token w1) (JObj d)
                :: Log INFO (MsgReceived (JObj d)) :: trace w1) w1 in
  let run := consume_messages E
               (before ++ PollMessage (Json (JObj d)) :: after) w in
  match post_outcome E (length (filter (λ e, is_post e = true) (trace w1)))
  with
  | Response status_code text =>
      (status_code ≠ 200)%Z →
      run = consume_messages E after
              (with_trace (Log ERROR (MsgSfmcError status_code text)
                           :: trace posted) posted)
  | NetworkFailure =>
      run = (logging ERROR (MsgConsumeError ConnectionError) ;;
             consumer_close E ;; ret Stopped) posted
  end.
Proof.
  intros Hty Hbefore posted run. subst run.
  rewrite (consume_messages_app _ _ _ _ _ Hbefore).
  assert (loop_body E (PollMessage (Json (JObj d))) w1 =
          send_to_sfmc E (JObj d)
            (with_trace (Log INFO (MsgReceived (JObj d)) :: trace w1) w1))
    as Hbody.
  { rewrite loop_body_message. unfold handle_event. by rewrite Hty. }
  destruct (post_outcome E _) as [status text|] eqn:Hout.
  - intros Hne.
    change (PollMessage (Json (JObj d)) :: after)
      with ([PollMessage (Json (JObj d))] ++ after).
    apply consume_messages_app. rewrite for_each_one, Hbody.
    unfold send_to_sfmc, bind, gets, emit, logging, emit, act, ret. simpl.
    rewrite posts_skip_log, Hout.
    destruct (Z.eqb_spec status 200); [done|]. done.
  - apply consume_messages_raise; [done|]. rewrite Hbody.
    unfold send_to_sfmc, bind, gets, emit, act, raise. simpl.
    by rewrite posts_skip_log, Hout.
Qed.

(** ** C6: shutdown *)

Lemma consumer_close_open E w :
  consumer_closed w = false →
  consumer_close E w =
  (Ok tt, with_consumer_closed true (with_trace (ConsumerClose :: trace w) w)).
Proof.
  intros H. unfold consumer_close, bind, gets, emit, act. simpl.
  by rewrite H.
Qed.

Lemma consumer_close_closed E w :
  consumer_closed w = true →
  consumer_close E w =
  if close_raises_when_closed E
  then (Raise RuntimeError, with_trace (ConsumerClose :: trace w) w)
  else (Ok tt,
        with_consumer_closed true (with_trace (ConsumerClose :: trace w) w)).
Proof.
  intros H. unfold consumer_close, bind, gets, emit, act, raise. simpl.
  rewrite H. simpl. by destruct (close_raises_when_closed E).
Qed.

Lemma os_unlink_present path c w :
  fs w !! path = Some c →
  os_unlink path w =
  (Ok tt, with_trace (Unlink path :: trace w)
            (with_fs (delete path (fs w)) w)).
Proof.
  intros H. unfold os_unlink, bind, gets, emit, act. simpl.
  rewrite bool_decide_eq_true_2 by (rewrite H; eauto). done.
Qed.

Lemma os_unlink_absent path w :
  fs w !! path = None →
  os_unlink path w = (Raise (FileNotFoundError path), w).
Proof.
  intros H. unfold os_unlink, bind, gets, raise. simpl.
  rewrite bool_decide_eq_false_2 by (rewrite H; by intros [? ?]). done.
Qed.

(** Once the first temporary file is gone, a run of the handler fails:
    on the second [close()] if the library refuses it, else on the
    [unlink]. *)
Lemma signal_handler_after_unlink E w :
  fs w !! temp_cafile E = None →
  ∃ e w', signal_handler E w = (Raise e, w') ∧
          (e = RuntimeError ∨ e = FileNotFoundError (temp_cafile E)) ∧
          closes (trace w') = S (closes (trace w)).
Proof.
  intros Hca. unfold signal_handler.
  unfold bind at 1. unfold emit at 1, act at 1.
  unfold bind at 1.
  set (w1 := with_trace _ w).
  destruct (consumer_closed w1) eqn:Hc.
  - rewrite (consumer_close_closed _ _ Hc).
    destruct (close_raises_when_closed E).
    + eexists _, _. split; [done|]. split; [by left|]. done.
    + unfold bind at 1. rewrite os_unlink_absent by done.
      eexists _, _. split; [done|]. split; [by right|]. done.
  - rewrite (consumer_close_open _ _ Hc).
    unfold bind at 1. rewrite os_unlink_absent by done.
    eexists _, _. split; [done|]. split; [by right|]. done.
Qed.

(** The handler statement by statement, from a state with the consumer
    open and the three temporary files in place. *)
Lemma first_statements E w ca_c cert_c key_c :
  consumer_closed w = false →
  NoDup [temp_cafile E; temp_certfile E; temp_keyfile E] →
  fs w !! temp_cafile E = Some ca_c →
  fs w !! temp_certfile E = Some cert_c →
  fs w !! temp_keyfile E = Some key_c →
  let p := Print "Signal received, shutting down..." in
  let w2 := World (bulk_events w) (bulk_timers w) (threads w) (clock w)
              (fs w) true (sfmc_access_token w)
              (ConsumerClose :: p :: trace w) in
  let w3 := with_trace (Unlink (temp_cafile E) :: trace w2)
              (with_fs (delete (temp_cafile E) (fs w)) w2) in
  let w4 := with_trace (Unlink (temp_certfile E) :: trace w3)
              (with_fs (delete (temp_certfile E) (fs w3)) w3) in
  let w5 := with_trace (Unlink (temp_keyfile E) :: trace w4)
              (with_fs (delete (temp_keyfile E) (fs w4)) w4) in
  run_steps (take 2 (handler_steps E)) w = (Ok tt, w2) ∧
  run_steps (take 3 (handler_steps E)) w = (Ok tt, w3) ∧
  run_steps (take 4 (handler_steps E)) w = (Ok tt, w4) ∧
  run_steps (take 5 (handler_steps E)) w = (Ok tt, w5) ∧
  signal_handler E w = (Raise (SystemExit 0), w5).
Proof.
  intros Hc Hnd Hca Hcert Hkey p w2 w3 w4 w5.
  assert (temp_cafile E ≠ temp_certfile E ∧ temp_cafile E ≠ temp_keyfile E ∧
          temp_certfile E ≠ temp_keyfile E) as (Hn11 & Hn12 & Hn2).
  { apply NoDup_cons in Hnd as [Hn1 Hnd]. apply NoDup_cons in Hnd as [Hn2 _].
    set_solver. }
  assert (consumer_close E (with_trace (p :: trace w) w) = (Ok tt, w2)) as H2.
  { by rewrite consumer_close_open. }
  assert (os_unlink (temp_cafile E) w2 = (Ok tt, w3)) as H3.
  { by rewrite (os_unlink_present _ ca_c). }
  assert (os_unlink (temp_certfile E) w3 = (Ok tt, w4)) as H4.
  { rewrite (os_unlink_present _ cert_c); [done|].
    simpl. by rewrite lookup_delete_ne. }
  assert (os_unlink (temp_keyfile E) w4 = (Ok tt, w5)) as H5.
  { rewrite (os_unlink_present _ key_c); [done|].
    simpl. by rewrite !lookup_delete_ne. }
  unfold signal_handler, run_steps, handler_steps. simpl.
  unfold bind, emit, act, ret, sys_exit, raise.
  fold p.
  rewrite H2, H3, H4, H5. done.
Qed.

(** The list of statements is the handler. *)
Lemma signal_handler_steps E w :
  signal_handler E w = run_steps (handler_steps E) w.
Proof.
  unfold signal_handler, run_steps, handler_steps, sys_exit. simpl.
  unfold bind, emit, act, raise.
  repeat match goal with
         | |- context [match ?m ?v with _ => _ end] =>
             destruct (m v) as [[[]|?] ?]
         end; reflexivity.
Qed.

(** Every run of the handler calls [close()] once and ends by an
    exception. *)
Lemma signal_handler_closes E w :
  ∃ e w', signal_handler E w = (Raise e, w') ∧
          closes (trace w') = S (closes (trace w)).
Proof.
  unfold signal_handler, consumer_close, os_unlink, sys_exit.
  unfold bind, gets, emit, act, raise. simpl.
  destruct (consumer_closed w), (close_raises_when_closed E); simpl;
    repeat (case_bool_decide; simpl); eexists _, _; split; reflexivity.
Qed.

(** C6, as the code has it.  The handler has no guard against a second
    delivery.  One delivery, with the consumer open and the three
    temporary files in place, closes the consumer once, deletes the three
    files and exits with status 0.  A second delivery that interrupts the
    handler after its [n]-th statement runs all of it again: from the
    second statement on the consumer is closed a second time, and once
    the first file has been deleted (n from 3 to 5) the nested run fails,
    on the second [close()] or on the [unlink] of a file that is gone, and
    the process ends with an uncaught exception, status 1. *)
Theorem shutdown_not_idempotent E w ca_c cert_c key_c :
  consumer_closed w = false →
  NoDup [temp_cafile E; temp_certfile E; temp_keyfile E] →
  fs w !! temp_cafile E = Some ca_c →
  fs w !! temp_certfile E = Some cert_c →
  fs w !! temp_keyfile E = Some key_c →
  (let once := signal_handler E w in
   exit_status once.1 = Some 0%Z ∧
   consumer_closed once.2 = true ∧
   closes (trace once.2) = S (closes (trace w)) ∧
   fs once.2 = delete (temp_keyfile E)
                 (delete (temp_certfile E)
                    (delete (temp_cafile E) (fs w)))) ∧
  (∀ n, 2 ≤ n ≤ 5 →
   closes (trace (second_signal_after E n w).2) = 2 + closes (trace w)) ∧
  (∀ n, 3 ≤ n ≤ 5 →
   exit_status (second_signal_after E n w).1 = Some 1%Z).
Proof.
  intros Hc Hnd Hca Hcert Hkey.
  destruct (first_statements E w ca_c cert_c key_c Hc Hnd Hca Hcert Hkey)
    as (H2 & H3 & H4 & H5 & Hall).
  assert (temp_cafile E ≠ temp_certfile E ∧ temp_cafile E ≠ temp_keyfile E)
    as [Hn1 Hn2].
  { apply NoDup_cons in Hnd as [Hn1 _]. set_solver. }
  split; [|split].
  - simpl. rewrite Hall. simpl. done.
  - intros n Hn.
    assert (∀ wn, run_steps (take n (handler_steps E)) w = (Ok tt, wn) →
                  closes (trace wn) = S (closes (trace w)) →
                  closes (trace (second_signal_after E n w).2)
                  = 2 + closes (trace w)) as Hcase.
    { intros wn Hrun Hcl.
      destruct (signal_handler_closes E wn) as (e & w' & Hsh & Hcl').
      assert (second_signal_after E n w = (Raise e, w')) as ->.
      { unfold second_signal_after. unfold bind at 1. rewrite Hrun.
        unfold bind at 1. by rewrite Hsh. }
      cbn [snd]. by rewrite Hcl', Hcl. }
    assert (n = 2 ∨ n = 3 ∨ n = 4 ∨ n = 5) as [-> | [-> | [-> | ->]]] by lia;
      eapply Hcase; eauto.
  - intros n Hn.
    assert (∀ wn, run_steps (take n (handler_steps E)) w = (Ok tt, wn) →
                  fs wn !! temp_cafile E = None →
                  exit_status (second_signal_after E n w).1 = Some 1%Z)
      as Hcase.
    { intros wn Hrun Hgone.
      destruct (signal_handler_after_unlink E wn Hgone)
        as (e & w' & Hsh & He & _).
      assert (second_signal_after E n w = (Raise e, w')) as ->.
      { unfold second_signal_after. unfold bind at 1. rewrite Hrun.
        unfold bind at 1. by rewrite Hsh. }
      by destruct He as [-> | ->]. }
    assert (n = 3 ∨ n = 4 ∨ n = 5) as [-> | [-> | ->]] by lia.
    + eapply Hcase; [exact H3|]. simpl. apply lookup_delete_eq.
    + eapply Hcase; [exact H4|]. simpl.
      rewrite lookup_delete_ne by done. apply lookup_delete_eq.
    + eapply Hcase; [exact H5|]. simpl.
      rewrite !lookup_delete_ne by done. apply lookup_delete_eq.
Qed.

(** ** The flush and the exporter *)

Lemma detach_spec s w :
  detach s w =
  (Ok (default [] (bulk_events w !! key_of s)),
   World (delete (key_of s) (bulk_events w))
         (delete (key_of s) (bulk_timers w))
         (match bulk_timers w !! key_of s with
          | Some i => alter set_finished i (threads w)
          | None => threads w
          end)
         (clock w) (fs w) (consumer_closed w) (sfmc_access_token w)
         (Detach (key_of s) (default [] (bulk_events w !! key_of s))
          :: trace w)).
Proof.
  unfold detach, bind, gets, act, emit, act, ret, timer_cancel, act. simpl.
  destruct (bulk_timers w !! key_of s) as [i|] eqn:Ht; simpl; [done|].
  by rewrite (delete_id (bulk_timers w)).
Qed.

Lemma writerow_frame path fieldnames rowdict w :
  ∃ r f, writerow path fieldnames rowdict w = (r, with_fs f w).
Proof.
  unfold writerow. destruct (dict_to_list _ _) as [cells|x].
  - eexists _, _. reflexivity.
  - exists (Raise x), (fs w). by destruct w.
Qed.

Lemma for_each_writerow_frame path fieldnames events w :
  ∃ r f, for_each events (writerow path fieldnames) w = (r, with_fs f w).
Proof.
  revert w. induction events as [|e events IH]; intros w; simpl.
  - exists (Ok tt), (fs w). by destruct w.
  - unfold bind.
    destruct (writerow_frame path fieldnames e w) as (r & f & ->).
    destruct r as [[]|x].
    + destruct (IH (with_fs f w)) as (r' & f' & ->). by exists r', f'.
    + by exists (Raise x), f.
Qed.

(** The exporter only touches the files; its call is on the trace. *)
Lemma generate_csv_frame E s events w :
  ∃ r f, generate_csv E s events w =
         (r, with_fs f (with_trace (GenerateCsv s events :: trace w) w)).
Proof.
  unfold generate_csv. unfold bind at 1. unfold emit at 1, act at 1.
  set (w0 := with_trace _ w).
  unfold bind at 1, open_w.
  destruct (can_open E (csv_path s)); simpl.
  - destruct events as [|first rest].
    + eexists _, _. unfold raise. done.
    + unfold bind at 1, write_line at 1, act at 1. unfold bind at 1.
      match goal with |- context [for_each ?l ?b ?v] =>
        destruct (for_each_writerow_frame (csv_path s) (keys first) l v)
          as (r & f & ->) end.
      destruct r as [[]|x]; eexists _, _; done.
  - exists (Raise (OSError (csv_path s))), (fs w). by destruct w.
Qed.




(** A flush of an open window: both entries are removed, the registered
    timer is cancelled, and the detached buffer is handed to the exporter,
    which touches nothing but the files. *)
Lemma export_bulk_events_open E s first rest w :
  bulk_events w !! key_of s = Some (first :: rest) →
  ∃ r f, export_bulk_events E s w =
    (r, World (delete (key_of s) (bulk_events w))
              (delete (key_of s) (bulk_timers w))
              (match bulk_timers w !! key_of s with
               | Some i => alter set_finished i (threads w)
               | None => threads w
               end)
              (clock w) f (consumer_closed w) (sfmc_access_token w)
              (GenerateCsv s (first :: rest)
               :: Detach (key_of s) (first :: rest) :: trace w)).
Proof.
  intros Hbuf. unfold export_bulk_events. unfold bind at 1.
  rewrite detach_spec, Hbuf. cbn [default from_option id].
  unfold bind at 1.
  match goal with |- context [generate_csv E s ?l ?v] =>
    destruct (generate_csv_frame E s l v) as (r & f & ->) end.
  destruct r as [path|x]; eexists _, f; reflexivity.
Qed.

(** A flush without a window: nothing to export. *)
Lemma export_bulk_events_absent E s w :
  bulk_events w !! key_of s = None →
  export_bulk_events E s w =
    (Ok tt,
     World (delete (key_of s) (bulk_events w))
           (delete (key_of s) (bulk_timers w))
           (match bulk_timers w !! key_of s with
            | Some i => alter set_finished i (threads w)
            | None => threads w
            end)
           (clock w) (fs w) (consumer_closed w) (sfmc_access_token w)
           (Detach (key_of s) [] :: trace w)).
Proof.
  intros Hbuf. unfold export_bulk_events. unfold bind at 1.
  by rewrite detach_spec, Hbuf.
Qed.

(** After a flush the state is the one the exporter leaves: the failed
    look-up of [upload_to_s3] changes nothing. *)
Lemma export_bulk_events_world E s first rest w :
  bulk_events w !! key_of s = Some (first :: rest) →
  (export_bulk_events E s w).2 =
  (generate_csv E s (first :: rest) (detach s w).2).2.
Proof.
  intros Hbuf. unfold export_bulk_events. unfold bind at 1.
  rewrite detach_spec, Hbuf. cbn [default from_option id fst snd].
  unfold bind at 1.
  by destruct (generate_csv E s (first :: rest) _) as [[path|x] v].
Qed.

Lemma for_each_writerow_prefix path fieldnames events ls w :
  fs w !! path = Some (CsvFile ls) →
  ∃ more, fs (for_each events (writerow path fieldnames) w).2 !! path
          = Some (CsvFile (ls ++ more)).
Proof.
  revert ls w. induction events as [|e events IH]; intros ls w Hfs; simpl.
  - exists []. by rewrite app_nil_r.
  - unfold bind. unfold writerow at 1.
    destruct (dict_to_list fieldnames e) as [cells|x].
    + unfold write_line, act.
      destruct (IH (ls ++ [DataLine cells])
                  (with_fs (alter (append_line (DataLine cells)) path (fs w))
                     w)) as (more & Hmore).
      { simpl. by rewrite lookup_alter_eq, Hfs. }
      exists (DataLine cells :: more). rewrite Hmore.
      by rewrite <- app_assoc.
    + exists []. by rewrite app_nil_r.
Qed.

(** Whatever happens to the rows, an artifact that could be opened starts
    with the header of the first event. *)
Lemma generate_csv_header E s first rest w :
  can_open E (csv_path s) = true →
  ∃ lines, fs (generate_csv E s (first :: rest) w).2 !! csv_path s
           = Some (CsvFile (HeaderLine (keys first) :: lines)).
Proof.
  intros Hopen. unfold generate_csv.
  unfold bind at 1. unfold emit at 1, act at 1.
  unfold bind at 1, open_w. rewrite Hopen. unfold act at 1.
  unfold bind at 1, write_line at 1, act at 1. unfold bind at 1.
  match goal with |- context [for_each ?l ?b ?v] =>
    destruct (for_each_writerow_prefix (csv_path s) (keys first) l
                [HeaderLine (keys first)] v) as (more & Hmore) end.
  { simpl. by rewrite alter_insert_eq, lookup_insert_eq. }
  exists more.
  match goal with |- context [for_each ?l ?b ?v] =>
    destruct (for_each l b v) as [[[]|x] v2] end; exact Hmore.
Qed.

(** ** C9 and C10 *)


(** C10. A bulk event without a [JourneyID] field is not rejected: it is
    buffered under the key [None], behind whatever that window already
    holds, and the buffers of all other keys are left alone; when it opens
    the window, the timer registered for it carries [None] as its argument.
    A flush of that window hands its whole buffer to the exporter in one
    call, whose path is [/tmp/None.csv]. *)
Theorem missing_journey_id E d w :
  dict_get "JourneyID" d = None →
  py_get "type" d = JStr "bulk" →
  let r := handle_event E (JObj d) w in
  r.1 = Ok tt ∧
  bulk_events r.2 !! KNone =
    Some (default [] (bulk_events w !! KNone) ++ [d]) ∧
  (∀ k, k ≠ KNone → bulk_events r.2 !! k = bulk_events w !! k) ∧
  (bulk_events w !! KNone = None →
   bulk_timers r.2 !! KNone = Some (length (threads w)) ∧
   threads r.2 !! length (threads w)
   = Some (Timer 120 SNone (clock w) false false)) ∧
  csv_path SNone = "/tmp/None.csv" ∧
  (∀ v first rest,
     bulk_events v !! KNone = Some (first :: rest) →
     let v' := (export_bulk_events E SNone v).2 in
     bulk_events v' !! KNone = None ∧
     trace v' = GenerateCsv SNone (first :: rest)
                :: Detach KNone (first :: rest) :: trace v ∧
     (can_open E "/tmp/None.csv" = true →
      ∃ lines, fs v' !! "/tmp/None.csv"
               = Some (CsvFile (HeaderLine (keys first) :: lines)))).
Proof.
  intros Hjid Hty r. subst r.
  assert (py_get "JourneyID" d = JNull) as Hnull.
  { unfold py_get. by rewrite Hjid. }
  unfold handle_event. rewrite Hty, Hnull. simpl.
  split; [|split; [|split; [|split; [|split]]]].
  - destruct (bulk_events w !! KNone) as [buf|] eqn:Hb.
    + by rewrite (add_bulk_event_open JNull SNone d buf).
    + by rewrite (add_bulk_event_new JNull SNone).
  - destruct (bulk_events w !! KNone) as [buf|] eqn:Hb.
    + rewrite (add_bulk_event_open JNull SNone d buf) by done.
      simpl. apply lookup_insert_eq.
    + rewrite (add_bulk_event_new JNull SNone) by done.
      simpl. apply lookup_insert_eq.
  - intros k Hk. destruct (bulk_events w !! KNone) as [buf|] eqn:Hb.
    + rewrite (add_bulk_event_open JNull SNone d buf) by done.
      simpl. by apply lookup_insert_ne.
    + rewrite (add_bulk_event_new JNull SNone) by done.
      simpl. by apply lookup_insert_ne.
  - intros Hb. rewrite (add_bulk_event_new JNull SNone) by done. simpl.
    split; [apply lookup_insert_eq|].
    rewrite lookup_app_r by done. by rewrite Nat.sub_diag.
  - done.
  - intros v first rest Hbuf.
    destruct (export_bulk_events_open E SNone first rest v Hbuf)
      as (r & f & Heq).
    split; [|split].
    + rewrite Heq. simpl. apply lookup_delete_eq.
    + by rewrite Heq.
    + intros Hopen. rewrite (export_bulk_events_world E SNone first rest v Hbuf).
      by apply (generate_csv_header E SNone).
Qed.

(** ** The aggregator invariant is inductive *)

Lemma pending_append_eq k e tr :
  pending k (Append k e :: tr) = pending k tr ++ [e].
Proof. simpl. by rewrite bool_decide_eq_true_2. Qed.

Lemma pending_append_ne k k' e tr :
  k' ≠ k → pending k (Append k' e :: tr) = pending k tr.
Proof. intros H. simpl. by rewrite bool_decide_eq_false_2. Qed.

Lemma pending_detach_eq k events tr : pending k (Detach k events :: tr) = [].
Proof. simpl. by rewrite bool_decide_eq_true_2. Qed.

Lemma pending_detach_ne k k' events tr :
  k' ≠ k → pending k (Detach k' events :: tr) = pending k tr.
Proof. intros H. simpl. by rewrite bool_decide_eq_false_2. Qed.

Lemma Inv_absent w k :
  Inv w → bulk_events w !! k = None →
  pending k (trace w) = [] ∧ bulk_timers w !! k = None.
Proof.
  intros HI Hk. split.
  - destruct (pending k (trace w)) as [|e l] eqn:Hp; [done|].
    assert (bulk_events w !! k = Some (e :: l)) as H.
    { apply (inv_buffer w HI). by rewrite Hp. }
    congruence.
  - destruct (bulk_timers w !! k) as [i|] eqn:Ht; [|done].
    assert (is_Some (bulk_events w !! k)) as [? ?].
    { apply (inv_dom w HI). eauto. }
    congruence.
Qed.

Lemma Inv_open w k buf :
  Inv w → bulk_events w !! k = Some buf →
  buf = pending k (trace w) ∧ buf ≠ [] ∧
  ∃ i t, bulk_timers w !! k = Some i ∧ threads w !! i = Some t ∧
         live t ∧ key_of (t_args t) = k.
Proof.
  intros HI Hk. apply (inv_buffer w HI) in Hk as Hb. destruct Hb as [Hp Hne].
  split; [done|]. split; [done|].
  destruct (proj2 (inv_dom w HI k)) as [i Hi]; [eauto|].
  destruct (inv_registered w HI k i Hi) as (t & Ht & Hl & Hkey).
  by exists i, t.
Qed.

Lemma Inv_initial w : initial w → Inv w.
Proof.
  intros (He & Ht & Hth & Htr). split.
  - intros k buf. rewrite He, Htr, lookup_empty. simpl.
    split; [done|intros [-> ?]; done].
  - intros k. by rewrite He, Ht, !lookup_empty.
  - intros k i. by rewrite Ht, lookup_empty.
  - intros i t. by rewrite Hth.
Qed.

(** The invariant does not read the clock, the files or the consumer. *)
Lemma Inv_same w w' :
  bulk_events w' = bulk_events w → bulk_timers w' = bulk_timers w →
  threads w' = threads w →
  (∀ k, pending k (trace w') = pending k (trace w)) →
  Inv w → Inv w'.
Proof.
  intros He Ht Hth Hp [H1 H2 H3 H4]. split.
  - intros k buf. rewrite He, Hp. apply H1.
  - intros k. rewrite He, Ht. apply H2.
  - intros k i. rewrite Ht, Hth. apply H3.
  - intros i t. rewrite Ht, Hth. apply H4.
Qed.

Lemma Inv_add_bulk_event journey_id event_data w :
  Inv w → Inv (add_bulk_event journey_id event_data w).2.
Proof.
  intros HI. destruct (as_scalar journey_id) as [s|] eqn:Hs;
    [|by rewrite add_bulk_event_unhashable].
  set (k := key_of s).
  destruct (bulk_events w !! k) as [buf|] eqn:Hk.
  - rewrite (add_bulk_event_open _ s _ buf) by done. fold k. cbn [snd].
    destruct (Inv_open w k buf HI Hk) as (Hp & Hne & _).
    destruct HI as [H1 H2 H3 H4]. split; cbn [bulk_events bulk_timers threads trace].
    + intros k' buf'. destruct (decide (k' = k)) as [->|Hkk].
      * rewrite lookup_insert_eq, pending_append_eq, <- Hp.
        split; [intros [= <-]|intros [-> _]; done].
        split; [done|]. by destruct buf.
      * rewrite lookup_insert_ne, pending_append_ne by done. apply H1.
    + intros k'. destruct (decide (k' = k)) as [->|Hkk].
      * rewrite lookup_insert_eq. rewrite H2, Hk. split; eauto.
      * rewrite lookup_insert_ne by done. apply H2.
    + done.
    + done.
  - rewrite (add_bulk_event_new _ s) by done. fold k. cbn [snd].
    destruct (Inv_absent w k HI Hk) as [Hp Ht].
    destruct HI as [H1 H2 H3 H4]. split; cbn [bulk_events bulk_timers threads trace].
    + intros k' buf'. destruct (decide (k' = k)) as [->|Hkk].
      * rewrite lookup_insert_eq, pending_append_eq, Hp. cbn [app].
        split; [intros [= <-]|intros [-> _]]; done.
      * rewrite lookup_insert_ne, pending_append_ne by done. apply H1.
    + intros k'. destruct (decide (k' = k)) as [->|Hkk].
      * rewrite !lookup_insert_eq. split; eauto.
      * rewrite !lookup_insert_ne by done. apply H2.
    + intros k' i. destruct (decide (k' = k)) as [->|Hkk].
      * rewrite lookup_insert_eq. intros [= <-].
        exists (Timer 120 s (clock w) false false).
        rewrite lookup_app_r by done. rewrite Nat.sub_diag. done.
      * rewrite lookup_insert_ne by done. intros Hi.
        destruct (H3 k' i Hi) as (t & Hti & Hl & Hkey).
        exists t. split; [|done]. by apply lookup_app_l_Some.
    + intros i t Hi Hl. apply lookup_app_Some in Hi as [Hi|[Hlen Hi]].
      * pose proof (H4 i t Hi Hl) as Hreg.
        rewrite lookup_insert_ne; [done|]. intros Heq. congruence.
      * apply list_lookup_singleton_Some in Hi as [Hz <-]. simpl. fold k.
        rewrite lookup_insert_eq. f_equal. lia.
Qed.

(** What a flush of [k] does to a state that satisfies the invariant, in
    terms of look-ups: both entries of [k] are gone, the timer [i] that
    was registered for [k] is no longer scheduled, every other timer and
    every other key is as before. *)
Lemma Inv_flush w w' k i :
  Inv w → bulk_timers w !! k = Some i →
  bulk_events w' = delete k (bulk_events w) →
  bulk_timers w' = delete k (bulk_timers w) →
  (∀ j, j ≠ i → threads w' !! j = threads w !! j) →
  (∀ t, threads w' !! i = Some t → ¬ live t) →
  (∀ k', pending k' (trace w') =
         if decide (k' = k) then [] else pending k' (trace w)) →
  Inv w'.
Proof.
  intros [H1 H2 H3 H4] Hi He Ht Hoth Hdead Hp.
  destruct (H3 k i Hi) as (ti & Hti & Hli & Hki).
  split.
  - intros k' buf. rewrite He, Hp. destruct (decide (k' = k)) as [->|Hkk].
    + rewrite lookup_delete_eq. split; [done|intros [-> ?]; done].
    + rewrite lookup_delete_ne by done. apply H1.
  - intros k'. rewrite He, Ht. destruct (decide (k' = k)) as [->|Hkk].
    + rewrite !lookup_delete_eq. split; intros [? ?]; done.
    + rewrite !lookup_delete_ne by done. apply H2.
  - intros k' j. rewrite Ht. destruct (decide (k' = k)) as [->|Hkk].
    + by rewrite lookup_delete_eq.
    + rewrite lookup_delete_ne by done. intros Hj.
      destruct (H3 k' j Hj) as (t & Htj & Hl & Hkey).
      exists t. split; [|done]. rewrite Hoth; [done|].
      intros ->. congruence.
  - intros j t Hj Hl.
    assert (j ≠ i) as Hji by (intros ->; by apply (Hdead t)).
    rewrite Hoth in Hj by done. pose proof (H4 j t Hj Hl) as Hreg.
    rewrite Ht, lookup_delete_ne; [done|]. intros Heq.
    rewrite <- Heq in Hreg. congruence.
Qed.

Lemma Inv_export_bulk_events E s w :
  Inv w → Inv (export_bulk_events E s w).2.
Proof.
  intros HI. set (k := key_of s).
  destruct (bulk_events w !! k) as [buf|] eqn:Hk.
  - destruct (Inv_open w k buf HI Hk) as (_ & Hne & i & t & Hi & Hti & _).
    destruct buf as [|first rest]; [done|].
    destruct (export_bulk_events_open E s first rest w Hk) as (r & f & ->).
    fold k. rewrite Hi. cbn [snd].
    apply (Inv_flush w _ k i HI Hi); cbn [bulk_events bulk_timers threads trace].
    + done.
    + done.
    + intros j Hj. by apply list_lookup_alter_ne.
    + intros t'. rewrite list_lookup_alter_eq, Hti. intros [= <-] [? _]. done.
    + intros k'. simpl. destruct (decide (k' = k)) as [->|Hkk].
      * by rewrite bool_decide_eq_true_2.
      * by rewrite bool_decide_eq_false_2.
  - destruct (Inv_absent w k HI Hk) as [Hp Ht].
    rewrite (export_bulk_events_absent E s w Hk). fold k. rewrite Ht.
    cbn [snd]. apply (Inv_same w); cbn [bulk_events bulk_timers threads trace];
      [by apply delete_id|by apply delete_id|done| |done].
    intros k'. destruct (decide (k' = k)) as [->|Hkk].
    + by rewrite pending_detach_eq.
    + by rewrite pending_detach_ne.
Qed.

(** A scheduled timer that wakes up: its window is flushed, whatever
    becomes of the export. *)
Lemma timer_run_live E i t first rest w :
  threads w !! i = Some t → t_finished t = false →
  bulk_events w !! key_of (t_args t) = Some (first :: rest) →
  bulk_timers w !! key_of (t_args t) = Some i →
  ∃ f th,
    (timer_run E i w).2 =
      World (delete (key_of (t_args t)) (bulk_events w))
            (delete (key_of (t_args t)) (bulk_timers w))
            th (clock w) f (consumer_closed w) (sfmc_access_token w)
            (GenerateCsv (t_args t) (first :: rest)
             :: Detach (key_of (t_args t)) (first :: rest) :: trace w) ∧
    (∀ j, j ≠ i → th !! j = threads w !! j) ∧
    (∀ t', th !! i = Some t' → ¬ live t').
Proof.
  intros Hti Hfin Hbuf Hreg. unfold timer_run.
  unfold bind at 1, gets at 1. cbn [threads]. rewrite Hti.
  unfold bind at 1, act at 1. rewrite Hfin. unfold bind at 1.
  set (w1 := with_threads _ w).
  destruct (export_bulk_events_open E (t_args t) first rest w1 Hbuf)
    as (r & f & ->).
  subst w1. cbn [bulk_timers bulk_events threads clock consumer_closed
                 sfmc_access_token trace with_threads].
  rewrite Hreg.
  assert (∀ th : list timer,
    (∀ j, j ≠ i → th !! j = threads w !! j) →
    (∀ j, j ≠ i → alter set_finished i th !! j = threads w !! j)) as Hoth.
  { intros th H j Hj. rewrite list_lookup_alter_ne by done. by apply H. }
  assert (∀ j, j ≠ i → alter set_woken i (threads w) !! j = threads w !! j)
    as Hw.
  { intros j Hj. by rewrite list_lookup_alter_ne. }
  assert (∀ (th : list timer) t',
            alter set_finished i th !! i = Some t' → ¬ live t')
    as Hdead.
  { intros th t'. rewrite list_lookup_alter_eq.
    destruct (th !! i); simpl; [|done]. intros [= <-] [? _]. done. }
  destruct r as [[]|x].
  - unfold timer_cancel, act. cbn [snd with_threads bulk_timers bulk_events
      threads clock consumer_closed sfmc_access_token trace fs].
    eexists f, _. split; [done|]. split; [|apply Hdead].
    apply Hoth, Hoth, Hw.
  - cbn [snd]. eexists f, _. split; [done|]. split; [|apply Hdead].
    apply Hoth, Hw.
Qed.

Lemma Inv_timer_run E i t w :
  Inv w → threads w !! i = Some t → live t → Inv (timer_run E i w).2.
Proof.
  intros HI Hti Hl. pose proof (inv_live w HI i t Hti Hl) as Hreg.
  destruct (proj1 (inv_dom w HI (key_of (t_args t)))) as [buf Hbuf]; [eauto|].
  destruct (Inv_open w _ buf HI Hbuf) as (_ & Hne & _).
  destruct buf as [|first rest]; [done|].
  destruct (timer_run_live E i t first rest w Hti (proj1 Hl) Hbuf Hreg)
    as (f & th & -> & Hoth & Hdead).
  apply (Inv_flush w _ _ i HI Hreg);
    cbn [bulk_events bulk_timers threads trace]; try done.
  intros k'. simpl. destruct (decide (k' = _)) as [->|Hkk].
  - by rewrite bool_decide_eq_true_2.
  - by rewrite bool_decide_eq_false_2.
Qed.

Lemma liveb_live t : liveb t = true → live t.
Proof.
  unfold liveb, live. destruct (t_finished t), (t_woken t); simpl; done.
Qed.

Lemma Inv_step E l w w' : Inv w → step E l w = Some w' → Inv w'.
Proof.
  intros HI. destruct l as [t journey_id event_data|t i]; simpl.
  - case_bool_decide; [|done]. intros [= <-].
    apply Inv_add_bulk_event. by apply (Inv_same w).
  - destruct (threads w !! i) as [tm|] eqn:Hi; [|done].
    destruct (bool_decide (clock w ≤ t)%Z && liveb tm
              && bool_decide (t_deadline tm ≤ t)%Z) eqn:Hc; [|done].
    apply andb_prop in Hc as [Hc _]. apply andb_prop in Hc as [_ Hl].
    intros [= <-]. apply (Inv_timer_run E i tm); [|done|by apply liveb_live].
    by apply (Inv_same w).
Qed.

Lemma Inv_exec E sched w w' : Inv w → exec E sched w = Some w' → Inv w'.
Proof.
  revert w. induction sched as [|l sched IH]; intros w HI; simpl.
  - by intros [= <-].
  - destruct (step E l w) as [w1|] eqn:Hs; [|done].
    apply IH. by apply (Inv_step E l w).
Qed.

Lemma Inv_reachable E w : reachable E w → Inv w.
Proof.
  intros (w0 & sched & Hinit & Hexec).
  apply (Inv_exec E sched w0); [by apply Inv_initial|done].
Qed.

Lemma Inv_window_invariant w : Inv w → window_invariant w.
Proof.
  intros HI. split; [|split].
  - intros k. split.
    + intros [buf Hbuf]. destruct (Inv_open w k buf HI Hbuf) as (<- & ? & _).
      done.
    + intros Hne. exists (pending k (trace w)). by apply (inv_buffer w HI).
  - intros k b1 b2 H1 H2. congruence.
  - intros i j ti tj Hi Hj Hli Hlj Hkey.
    pose proof (inv_live w HI i ti Hi Hli) as Hri.
    pose proof (inv_live w HI j tj Hj Hlj) as Hrj.
    rewrite Hkey in Hri. congruence.
Qed.

(** ** C2 *)

(** C2. In every state that a schedule of arrivals and timer wake-ups
    reaches from start-up, for every key: a buffer entry exists iff events
    for the key have been buffered since its last completed flush; the key
    has at most one buffer entry; and at most one scheduled timer carries
    the key.  The same holds again after [add_bulk_event] and after
    [export_bulk_events], the two operations that touch the dictionaries,
    each taken as one atomic step because both hold [bulk_lock] while they
    do. *)
Theorem aggregator_invariant E w :
  reachable E w →
  window_invariant w ∧
  (∀ journey_id event_data,
     window_invariant (add_bulk_event journey_id event_data w).2) ∧
  (∀ journey_id, window_invariant (export_bulk_events E journey_id w).2).
Proof.
  intros Hr. apply Inv_reachable in Hr. split; [|split].
  - by apply Inv_window_invariant.
  - intros journey_id event_data.
    by apply Inv_window_invariant, Inv_add_bulk_event.
  - intros journey_id. by apply Inv_window_invariant, Inv_export_bulk_events.
Qed.

(** ** One window, one export *)

Lemma within_window_app_l arr more :
  within_window (arr ++ more) → within_window arr.
Proof.
  destruct arr as [|[t1 e1] rest]; simpl; [done|].
  rewrite Forall_app. by intros [? _].
Qed.

Lemma exec_app E s1 s2 w :
  exec E (s1 ++ s2) w =
  match exec E s1 w with
  | Some w1 => exec E s2 w1
  | None => None
  end.
Proof.
  revert w. induction s1 as [|l s1 IH]; intros w; simpl; [done|].
  destruct (step E l w); [apply IH|done].
Qed.

Lemma arrivals_app k s1 s2 :
  arrivals k (s1 ++ s2) = arrivals k s1 ++ arrivals k s2.
Proof. apply omap_app. Qed.

(** A step that leaves the entries of [k], its registered timer and its
    exports alone leaves the window of [k] where it stands. *)
Lemma tracking_frame k w0 arr w w' :
  tracking k w0 arr w →
  bulk_events w' !! k = bulk_events w !! k →
  bulk_timers w' !! k = bulk_timers w !! k →
  (∀ i tm, bulk_timers w !! k = Some i →
           threads w' !! i = Some tm → threads w !! i = Some tm) →
  exports_of k (trace w') = exports_of k (trace w) →
  (clock w ≤ clock w')%Z →
  tracking k w0 arr w'.
Proof.
  intros Htr He Ht Hth Hex Hclock. destruct arr as [|[t1 e1] rest]; simpl in *.
  - rewrite He, Hex. done.
  - rewrite He, Hex, Ht. destruct Htr as [(Hb & Hd & Hx)|(Hb & Hc & Hx)].
    + left. split; [done|]. split; [|done].
      intros i tm Hi Htm. apply (Hd i tm Hi). by apply Hth.
    + right. split; [done|]. split; [lia|done].
Qed.

Lemma arrivals_one_hit k t journey_id s event_data :
  as_scalar journey_id = Some s → key_of s = k →
  arrivals k [Arrive t journey_id event_data] = [(t, event_data)].
Proof.
  intros Hs Hk. unfold arrivals. simpl. rewrite Hs.
  by rewrite bool_decide_eq_true_2.
Qed.

Lemma arrivals_one_miss k t journey_id s event_data :
  as_scalar journey_id = Some s → key_of s ≠ k →
  arrivals k [Arrive t journey_id event_data] = [].
Proof.
  intros Hs Hk. unfold arrivals. simpl. rewrite Hs.
  by rewrite bool_decide_eq_false_2.
Qed.

Lemma tracking_arrive k w0 arr w t journey_id event_data :
  Inv w → (clock w ≤ t)%Z →
  tracking k w0 arr w →
  let more := arrivals k [Arrive t journey_id event_data] in
  within_window (arr ++ more) →
  tracking k w0 (arr ++ more)
    (add_bulk_event journey_id event_data (with_clock t w)).2.
Proof.
  intros HI Hclock Htr more Hww. subst more.
  assert (Inv (with_clock t w)) as HIc by (by apply (Inv_same w)).
  set (v := with_clock t w) in *.
  destruct (as_scalar journey_id) as [s|] eqn:Hs.
  2:{ rewrite add_bulk_event_unhashable by done.
      assert (arrivals k [Arrive t journey_id event_data] = []) as ->.
      { unfold arrivals. simpl. by rewrite Hs. }
      rewrite app_nil_r. by apply (tracking_frame k w0 arr w). }
  destruct (decide (key_of s = k)) as [<-|Hk].
  - rewrite (arrivals_one_hit (key_of s) t journey_id s) in * by done.
    destruct arr as [|[t1 e1] rest]; simpl in Htr.
    + destruct Htr as [Hb Hx].
      rewrite (add_bulk_event_new _ s) by done.
      simpl. left. split; [apply lookup_insert_eq|].
      split; [|done]. intros i tm. rewrite lookup_insert_eq.
      intros [= <-]. rewrite lookup_app_r by done. rewrite Nat.sub_diag.
      intros [= <-]. done.
    + destruct Htr as [(Hb & Hd & Hx)|(Hb & Hc & Hx)].
      * rewrite (add_bulk_event_open _ s _ (e1 :: rest.*2)) by done.
        simpl. left. split.
        { rewrite lookup_insert_eq, fmap_app. done. }
        split; [|done]. apply Hd.
      * simpl in Hww. apply Forall_app in Hww as [_ Hlast].
        apply Forall_inv in Hlast. simpl in Hlast. lia.
  - rewrite (arrivals_one_miss k t journey_id s) in * by done.
    rewrite app_nil_r.
    destruct (bulk_events v !! key_of s) as [buf|] eqn:Hb.
    + rewrite (add_bulk_event_open _ s _ buf) by done.
      apply (tracking_frame k w0 arr w); simpl; try done.
      by rewrite lookup_insert_ne.
    + rewrite (add_bulk_event_new _ s) by done.
      apply (tracking_frame k w0 arr w); simpl; try done.
      * by rewrite lookup_insert_ne.
      * by rewrite lookup_insert_ne.
      * intros i tm Hi Htm.
        destruct (inv_registered w HI k i Hi) as (tm' & Hi' & _).
        rewrite lookup_app_l in Htm; [done|]. by eapply lookup_lt_Some.
Qed.

Lemma tracking_fire E k w0 arr w t i tm :
  Inv w → (clock w ≤ t)%Z →
  threads w !! i = Some tm → live tm → (t_deadline tm ≤ t)%Z →
  tracking k w0 arr w →
  tracking k w0 arr (timer_run E i (with_clock t w)).2.
Proof.
  intros HI Hclock Hi Hl Hdue Htr.
  pose proof (inv_live w HI i tm Hi Hl) as Hreg.
  destruct (proj1 (inv_dom w HI (key_of (t_args tm)))) as [buf Hbuf];
    [eauto|].
  destruct (Inv_open w _ buf HI Hbuf) as (_ & Hne & _).
  destruct buf as [|first more]; [done|].
  destruct (timer_run_live E i tm first more (with_clock t w)
              Hi (proj1 Hl) Hbuf Hreg) as (f & th & -> & Hoth & Hdead).
  cbn [snd]. destruct (decide (key_of (t_args tm) = k)) as [Hk|Hk].
  - destruct arr as [|[t1 e1] rest]; simpl in Htr.
    + destruct Htr as [Hb _]. rewrite Hk in Hbuf. simpl in Hbuf. congruence.
    + destruct Htr as [(Hb & Hd & Hx)|(Hb & _)];
        [|rewrite Hk in Hbuf; simpl in Hbuf; congruence].
      rewrite Hk in *. simpl in Hbuf, Hreg.
      assert (first :: more = e1 :: rest.*2) as -> by congruence.
      pose proof (Hd i tm Hreg Hi) as Hdeadline.
      right. simpl. split; [apply lookup_delete_eq|]. split; [lia|].
      rewrite Hk, bool_decide_eq_true_2 by done. by rewrite <- Hx.
  - apply (tracking_frame k w0 arr w); simpl; try done.
    + by rewrite lookup_delete_ne.
    + by rewrite lookup_delete_ne.
    + intros j tm' Hj Htm'.
      destruct (inv_registered w HI k j Hj) as (tj & Htj & _ & Hkj).
      rewrite Hoth in Htm'; [done|]. intros ->. congruence.
    + by rewrite bool_decide_eq_false_2.
Qed.

Lemma tracking_step E k w0 arr l w w' :
  Inv w → step E l w = Some w' →
  tracking k w0 arr w →
  within_window (arr ++ arrivals k [l]) →
  tracking k w0 (arr ++ arrivals k [l]) w'.
Proof.
  intros HI Hstep Htr Hww.
  destruct l as [t journey_id event_data|t i]; simpl in Hstep.
  - case_bool_decide; [|done]. injection Hstep as <-.
    by apply tracking_arrive.
  - destruct (threads w !! i) as [tm|] eqn:Hi; [|done].
    destruct (bool_decide (clock w ≤ t)%Z && liveb tm
              && bool_decide (t_deadline tm ≤ t)%Z) eqn:Hc; [|done].
    apply andb_prop in Hc as [Hc Hdue]. apply andb_prop in Hc as [Hcl Hl].
    apply bool_decide_eq_true_1 in Hdue, Hcl. injection Hstep as <-.
    change (arrivals k [Fire t i]) with (@nil (Z * event)).
    rewrite app_nil_r.
    by apply (tracking_fire E k w0 arr w t i tm); [..|apply liveb_live|idtac|].
Qed.

Lemma tracking_exec E k w0 sched w :
  Inv w0 → bulk_events w0 !! k = None →
  exec E sched w0 = Some w →
  within_window (arrivals k sched) →
  tracking k w0 (arrivals k sched) w.
Proof.
  intros HI0 Hk. revert w.
  induction sched as [|l sched IH] using rev_ind; intros w Hexec Hww.
  - injection Hexec as <-. simpl. done.
  - rewrite exec_app in Hexec.
    destruct (exec E sched w0) as [w1|] eqn:H1; [|done].
    simpl in Hexec. destruct (step E l w1) as [w2|] eqn:Hs; [|done].
    injection Hexec as <-. rewrite arrivals_app in *.
    apply (tracking_step E k w0 _ l w1); [|done| |done].
    + by apply (Inv_exec E sched w0).
    + apply IH; [done|]. by apply within_window_app_l in Hww.
Qed.

(** ** C1 *)

(** C1. Start from any reachable state in which key [k] has no window,
    and let a schedule run whose bulk events for [k] all arrive strictly
    within 120 seconds of the first of them.  Once the clock has reached
    the deadline of that window and every timer that is due has run, the
    exporter has been called for [k] exactly once more than before, with
    exactly those events in their order of arrival. *)
Theorem one_export_per_window E w0 sched w1 k t1 e1 rest :
  reachable E w0 →
  bulk_events w0 !! k = None →
  exec E sched w0 = Some w1 →
  arrivals k sched = (t1, e1) :: rest →
  Forall (λ te, (te.1 < t1 + 120)%Z) rest →
  (t1 + 120 ≤ clock w1)%Z →
  timers_up_to_date w1 →
  exports_of k (trace w1) = (e1 :: rest.*2) :: exports_of k (trace w0).
Proof.
  intros Hr Hk Hexec Harr Hwin Hclock Hup.
  apply Inv_reachable in Hr.
  pose proof (Inv_exec E sched w0 w1 Hr Hexec) as HI1.
  pose proof (tracking_exec E k w0 sched w1 Hr Hk Hexec) as Htr.
  rewrite Harr in Htr. simpl in Htr.
  destruct (Htr Hwin) as [(Hb & Hd & _)|(_ & _ & Hx)]; [|done].
  destruct (Inv_open w1 k _ HI1 Hb) as (_ & _ & i & tm & Hi & Htm & Hl & _).
  pose proof (Hd i tm Hi Htm). pose proof (Hup i tm Htm Hl). lia.
Qed.

(** * The statements on the sample data *)

(** The scenario of key [J1]: three events within the window, one export
    holding the three of them in order. *)
Lemma one_export_per_window_witness :
  exports_of (KStr "J1") (trace after_j1) =
  [[click "bulk" "J1" 0; click "bulk" "J1" 1; click "bulk" "J1" 2]].
Proof.
  apply (one_export_per_window env0 boot sched_j1 after_j1 (KStr "J1") 0
           (click "bulk" "J1" 0)
           [(30%Z, click "bulk" "J1" 1); (90%Z, click "bulk" "J1" 2)]).
  - exists boot, []. by repeat split.
  - reflexivity.
  - vm_compute. reflexivity.
  - vm_compute. reflexivity.
  - repeat constructor; simpl; lia.
  - vm_compute. discriminate.
  - intros i t. vm_compute.
    destruct i as [|[|i]]; intros [= <-] [Hf _]; discriminate.
Defined.

Lemma aggregator_invariant_witness :
  window_invariant open_j1 ∧
  window_invariant
    (add_bulk_event (JStr "J2") (click "bulk" "J2" 7) open_j1).2 ∧
  window_invariant (export_bulk_events env0 (SStr "J1") open_j1).2.
Proof.
  destruct (aggregator_invariant env0 open_j1) as (H1 & H2 & H3).
  - exists boot, [Arrive 0 (JStr "J1") (click "bulk" "J1" 0)].
    split; [by repeat split|]. vm_compute. reflexivity.
  - split; [exact H1|]. split; [apply H2|apply H3].
Defined.

(** A malformed payload between two valid messages: the loop stops, the
    consumer is closed, and the stream event behind it is never posted. *)
Lemma malformed_payload_counterexample :
  let polls := [ PollMessage (Json (JObj (click "bulk" "J1" 0)));
                 PollMessage BadJson;
                 PollMessage (Json (JObj (click "stream" "J1" 1))) ] in
  let r := consume_messages env0 polls boot in
  r.1 = Ok Stopped ∧
  consumer_closed r.2 = true ∧
  trace r.2 =
    [ ConsumerClose;
      Log ERROR (MsgConsumeError JSONDecodeError);
      Append (KStr "J1") (click "bulk" "J1" 0);
      Log INFO (MsgReceived (JObj (click "bulk" "J1" 0))) ].
Proof. vm_compute. done. Qed.

Lemma malformed_payload_ends_loop_witness :
  let before := [PollMessage (Json (JObj (click "bulk" "J1" 0)))] in
  let after := [PollMessage (Json (JObj (click "stream" "J1" 1)))] in
  let w1 := (for_each before (loop_body env0) boot).2 in
  consume_messages env0 (before ++ PollMessage BadJson :: after) boot =
  (logging ERROR (MsgConsumeError JSONDecodeError) ;;
   consumer_close env0 ;; ret Stopped) w1.
Proof.
  intros before after w1.
  apply (malformed_payload_ends_loop env0 before after BadJson boot w1).
  - right. reflexivity.
  - vm_compute. reflexivity.
Defined.

(** A network failure on the first of two stream events: the loop stops,
    and the second event is neither logged nor posted. *)
Lemma forward_failure_counterexample :
  let polls := [ PollMessage (Json (JObj (click "stream" "J1" 0)));
                 PollMessage (Json (JObj (click "stream" "J2" 1))) ] in
  let r := consume_messages env0 polls boot in
  r.1 = Ok Stopped ∧
  trace r.2 =
    [ ConsumerClose;
      Log ERROR (MsgConsumeError ConnectionError);
      HttpPost (Some "token") (JObj (click "stream" "J1" 0));
      Log INFO (MsgReceived (JObj (click "stream" "J1" 0))) ].
Proof. vm_compute. done. Qed.

Lemma forward_failure_witness :
  let d := click "stream" "J1" 0 in
  let after := [PollMessage (Json (JObj (click "stream" "J2" 1)))] in
  consume_messages env0 (PollMessage (Json (JObj d)) :: after) boot =
  (logging ERROR (MsgConsumeError ConnectionError) ;;
   consumer_close env0 ;; ret Stopped)
    (with_trace [ HttpPost (Some "token") (JObj d);
                  Log INFO (MsgReceived (JObj d)) ] boot).
Proof.
  intros d after.
  apply (forward_failure env0 [] after d boot boot).
  - reflexivity.
  - reflexivity.
Defined.

(** An event of type ["batch"]: all there is on the trace is the INFO
    record of its reception. *)
Lemma unknown_type_counterexample :
  let d := click "batch" "J1" 0 in
  let r := consume_messages env0 [PollMessage (Json (JObj d))] boot in
  trace r.2 = [Log INFO (MsgReceived (JObj d))] ∧
  ¬ ∃ m, Log WARNING m ∈ trace r.2.
Proof.
  split; [vm_compute; done|].
  intros [m Hm]. vm_compute in Hm.
  apply list_elem_of_singleton in Hm. discriminate.
Qed.

Lemma unknown_type_dropped_silently_witness :
  handle_event env0 (JObj (click "batch" "J1" 0)) boot = (Ok tt, boot).
Proof.
  apply (unknown_type_dropped_silently env0 (click "batch" "J1" 0) boot).
  - vm_compute. discriminate.
  - vm_compute. discriminate.
Defined.

(** A second signal after the handler has deleted the first temporary
    file: the consumer is closed twice and the process dies of
    [FileNotFoundError]. *)
Lemma shutdown_counterexample :
  let r := second_signal_after env0 3 boot in
  r.1 = Raise (FileNotFoundError "/tmp/tmp_ca") ∧
  exit_status r.1 = Some 1%Z ∧
  closes (trace r.2) = 2.
Proof. vm_compute. done. Qed.

Lemma shutdown_not_idempotent_witness :
  exit_status (signal_handler env0 boot).1 = Some 0%Z ∧
  exit_status (second_signal_after env0 4 boot).1 = Some 1%Z.
Proof.
  destruct (shutdown_not_idempotent env0 boot
              (TextFile "ca") (TextFile "cert") (TextFile "key"))
    as ((H0 & _) & _ & H2).
  - reflexivity.
  - apply (bool_decide_unpack _). vm_compute. exact I.
  - vm_compute. reflexivity.
  - vm_compute. reflexivity.
  - vm_compute. reflexivity.
  - split; [exact H0|]. apply H2. lia.
Defined.

Lemma bulk_event_on_open_window_witness :
  let w' := (handle_event env0 (JObj (click "bulk" "J1" 1)) open_j1).2 in
  bulk_events w' !! KStr "J1"
  = Some [click "bulk" "J1" 0; click "bulk" "J1" 1] ∧
  bulk_timers w' = bulk_timers open_j1 ∧
  threads w' = threads open_j1.
Proof.
  destruct (bulk_event_on_open_window env0 (click "bulk" "J1" 1) (SStr "J1")
              [click "bulk" "J1" 0] open_j1)
    as (_ & H1 & _ & H2 & H3).
  - reflexivity.
  - reflexivity.
  - vm_compute. reflexivity.
  - split; [exact H1|]. split; [exact H2|exact H3].
Defined.

Lemma routes_are_exclusive_witness :
  bulk_events (handle_event env0 (JObj (click "stream" "J1" 0)) open_j1).2
  = bulk_events open_j1 ∧
  ∀ token body,
    HttpPost token body
    ∈ trace (handle_event env0 (JObj (click "bulk" "J1" 1)) open_j1).2 →
    HttpPost token body ∈ trace open_j1.
Proof.
  split.
  - destruct (routes_are_exclusive env0 (click "stream" "J1" 0) open_j1)
      as [H _].
    destruct (H eq_refl) as (He & _). exact He.
  - destruct (routes_are_exclusive env0 (click "bulk" "J1" 1) open_j1)
      as [_ H].
    exact (H eq_refl).
Defined.



Lemma missing_journey_id_witness :
  let r := handle_event env0 (JObj (anonymous_click 0)) open_j1 in
  r.1 = Ok tt ∧
  bulk_events r.2 !! KNone = Some [anonymous_click 0] ∧
  csv_path SNone = "/tmp/None.csv".
Proof.
  destruct (missing_journey_id env0 (anonymous_click 0) open_j1)
    as (H1 & H2 & _ & _ & H5 & _).
  - reflexivity.
  - reflexivity.
  - split; [exact H1|]. split; [|exact H5].
    rewrite H2. vm_compute. reflexivity.
Defined.

(** * Further properties *)

(** ** What a flush and a wake-up leave of the state *)

Lemma export_bulk_events_shape E s w :
  ∃ r f tr,
    export_bulk_events E s w =
    (r, World (delete (key_of s) (bulk_events w))
              (delete (key_of s) (bulk_timers w))
              (match bulk_timers w !! key_of s with
               | Some i => alter set_finished i (threads w)
               | None => threads w
               end)
              (clock w) f (consumer_closed w) (sfmc_access_token w) tr).
Proof.
  destruct (bulk_events w !! key_of s) as [[|first rest]|] eqn:Hb.
  - unfold export_bulk_events. unfold bind at 1.
    rewrite detach_spec, Hb. cbn [default from_option id].
    eexists _, _, _. reflexivity.
  - destruct (export_bulk_events_open E s first rest w Hb) as (r & f & ->).
    by eexists _, _, _.
  - rewrite (export_bulk_events_absent E s w Hb). by eexists _, _, _.
Qed.


Lemma liveb_true t : live t → liveb t = true.
Proof. unfold live, liveb. by intros [-> ->]. Qed.

(** A wake-up as a step of a schedule, spelled out. *)
Lemma step_fire_spec E t i w w' :
  Inv w → step E (Fire t i) w = Some w' →
  ∃ tm first more f th,
    threads w !! i = Some tm ∧ live tm ∧
    (t_deadline tm ≤ t)%Z ∧ (clock w ≤ t)%Z ∧
    bulk_events w !! key_of (t_args tm) = Some (first :: more) ∧
    bulk_timers w !! key_of (t_args tm) = Some i ∧
    w' = World (delete (key_of (t_args tm)) (bulk_events w))
               (delete (key_of (t_args tm)) (bulk_timers w))
               th t f (consumer_closed w) (sfmc_access_token w)
               (GenerateCsv (t_args tm) (first :: more)
                :: Detach (key_of (t_args tm)) (first :: more) :: trace w) ∧
    (∀ j, j ≠ i → th !! j = threads w !! j) ∧
    (∀ t', th !! i = Some t' → ¬ live t').
Proof.
  intros HI. simpl.
  destruct (threads w !! i) as [tm|] eqn:Hi; [|done].
  destruct (bool_decide (clock w ≤ t)%Z && liveb tm
            && bool_decide (t_deadline tm ≤ t)%Z) eqn:Hc; [|done].
  apply andb_prop in Hc as [Hc Hdue]. apply andb_prop in Hc as [Hcl Hl].
  apply bool_decide_eq_true_1 in Hdue, Hcl. apply liveb_live in Hl.
  intros [= <-].
  pose proof (inv_live w HI i tm Hi Hl) as Hreg.
  destruct (proj1 (inv_dom w HI (key_of (t_args tm)))) as [buf Hbuf];
    [eauto|].
  destruct (Inv_open w _ buf HI Hbuf) as (_ & Hne & _).
  destruct buf as [|first more]; [done|].
  destruct (timer_run_live E i tm first more (with_clock t w)
              Hi (proj1 Hl) Hbuf Hreg) as (f & th & -> & Hoth & Hdead).
  by exists tm, first, more, f, th.
Qed.

(** A wake-up neither adds nor removes a timer. *)
Lemma timer_run_length E i w :
  length (threads (timer_run E i w).2) = length (threads w).
Proof.
  unfold timer_run. unfold bind at 1, gets at 1.
  destruct (threads w !! i) as [tm|]; [|done].
  unfold bind at 1, act at 1. unfold bind at 1.
  set (w1 := with_threads _ w).
  assert (length (threads w1) = length (threads w)) as H1.
  { subst w1. simpl. apply length_alter. }
  destruct (t_finished tm).
  - unfold ret, timer_cancel, act. simpl. by rewrite !length_alter.
  - destruct (export_bulk_events_shape E (t_args tm) w1) as (r & f & tr & ->).
    assert (∀ o : option nat,
      length (match o with
              | Some j => alter set_finished j (threads w1)
              | None => threads w1
              end) = length (threads w)) as H2.
    { intros [j|]; by rewrite ?length_alter. }
    destruct r as [[]|x]; simpl; rewrite ?length_alter; apply H2.
Qed.

(** ** X1: no event is lost or duplicated *)

Lemma accounted_step E k l w w' :
  Inv w → step E l w = Some w' →
  accounted k w' = accounted k w ++ (arrivals k [l]).*2.
Proof.
  intros HI Hstep. destruct l as [t journey_id event_data|t i].
  - simpl in Hstep. case_bool_decide; [|done]. injection Hstep as <-.
    set (v := with_clock t w).
    destruct (as_scalar journey_id) as [s|] eqn:Hs.
    2:{ rewrite add_bulk_event_unhashable by done.
        assert (arrivals k [Arrive t journey_id event_data] = []) as ->.
        { unfold arrivals. simpl. by rewrite Hs. }
        by rewrite app_nil_r. }
    unfold accounted.
    destruct (decide (key_of s = k)) as [<-|Hk].
    + rewrite (arrivals_one_hit (key_of s) t journey_id s) by done.
      destruct (bulk_events v !! key_of s) as [buf|] eqn:Hb.
      * rewrite (add_bulk_event_open _ s _ buf) by done. simpl.
        rewrite lookup_insert_eq. simpl in Hb. rewrite Hb. simpl.
        by rewrite app_assoc.
      * rewrite (add_bulk_event_new _ s) by done. simpl.
        rewrite lookup_insert_eq. simpl in Hb. rewrite Hb. simpl.
        by rewrite app_nil_r.
    + rewrite (arrivals_one_miss k t journey_id s) by done.
      rewrite app_nil_r.
      destruct (bulk_events v !! key_of s) as [buf|] eqn:Hb.
      * rewrite (add_bulk_event_open _ s _ buf) by done. simpl.
        by rewrite lookup_insert_ne.
      * rewrite (add_bulk_event_new _ s) by done. simpl.
        by rewrite lookup_insert_ne.
  - destruct (step_fire_spec E t i w w' HI Hstep)
      as (tm & first & more & f & th & _ & _ & _ & _ & Hbuf & _ & -> & _).
    change (arrivals k [Fire t i]) with (@nil (Z * event)).
    rewrite app_nil_r. unfold accounted. simpl.
    destruct (decide (key_of (t_args tm) = k)) as [<-|Hk].
    + rewrite bool_decide_eq_true_2 by done.
      rewrite lookup_delete_eq, Hbuf, reverse_cons, concat_app. simpl.
      by rewrite !app_nil_r.
    + rewrite bool_decide_eq_false_2 by done.
      by rewrite lookup_delete_ne.
Qed.

Lemma accounted_exec E k sched w w' :
  Inv w → exec E sched w = Some w' →
  accounted k w' = accounted k w ++ (arrivals k sched).*2.
Proof.
  revert w. induction sched as [|l sched IH]; intros w HI; cbn [exec].
  - intros [= <-]. by rewrite app_nil_r.
  - destruct (step E l w) as [w1|] eqn:Hs; [|done]. intros Hexec.
    rewrite (IH w1 (Inv_step E l w w1 HI Hs) Hexec).
    rewrite (accounted_step E k l w w1 HI Hs).
    change (l :: sched) with ([l] ++ sched).
    by rewrite arrivals_app, fmap_app, app_assoc.
Qed.

(** X1. Along any schedule from start-up, for every key: the lists handed
    to the exporter for the key, in the order of the flushes, followed by
    what the key's buffer still holds, are exactly the events that arrived
    for the key, each once, in arrival order. *)
Theorem no_event_lost_or_duplicated E k w0 sched w :
  initial w0 →
  exec E sched w0 = Some w →
  concat (reverse (exports_of k (trace w)))
  ++ default [] (bulk_events w !! k)
  = (arrivals k sched).*2.
Proof.
  intros Hinit Hexec.
  pose proof (accounted_exec E k sched w0 w (Inv_initial w0 Hinit) Hexec) as H.
  unfold accounted in H. rewrite H.
  destruct Hinit as (-> & _ & _ & ->). by rewrite lookup_empty.
Qed.

Lemma no_event_lost_or_duplicated_witness :
  concat (reverse (exports_of (KStr "J1") (trace after_j1)))
  ++ default [] (bulk_events after_j1 !! KStr "J1")
  = [click "bulk" "J1" 0; click "bulk" "J1" 1; click "bulk" "J1" 2].
Proof.
  apply (no_event_lost_or_duplicated env0 (KStr "J1") boot sched_j1 after_j1).
  - by repeat split.
  - vm_compute. reflexivity.
Defined.

(** ** X2: a timer runs its flush once *)






(** ** X3: an event that comes after the flush *)

(** X3. A bulk event that arrives for a key once the key's timer has run
    is not appended to the flushed window and is not dropped: it opens a
    new window that holds this event alone, with a new timer, other than
    the one that ran, due 120 seconds after this arrival. *)
Theorem late_event_opens_new_window
    E w t i tm w1 t' journey_id s event_data w2 :
  reachable E w →
  threads w !! i = Some tm →
  step E (Fire t i) w = Some w1 →
  as_scalar journey_id = Some s →
  key_of s = key_of (t_args tm) →
  step E (Arrive t' journey_id event_data) w1 = Some w2 →
  bulk_events w2 !! key_of s = Some [event_data] ∧
  ∃ j, j ≠ i ∧ bulk_timers w2 !! key_of s = Some j ∧
       threads w2 !! j = Some (Timer 120 s t' false false).
Proof.
  intros Hr Hi Hfire Hs Hk Harr. apply Inv_reachable in Hr.
  pose proof (timer_run_length E i (with_clock t w)) as Hlen.
  destruct (step_fire_spec E t i w w1 Hr Hfire)
    as (tm' & first & more & f & th & Hi' & _ & _ & _ & _ & _ & Hw1 & _ & _).
  assert (tm' = tm) as -> by congruence.
  assert (w1 = (timer_run E i (with_clock t w)).2) as Hrun.
  { simpl in Hfire. rewrite Hi in Hfire.
    destruct (_ && _ && _); [by injection Hfire|done]. }
  rewrite <- Hrun in Hlen. simpl in Hlen.
  assert (bulk_events w1 !! key_of s = None) as Hgone.
  { rewrite Hw1, Hk. simpl. apply lookup_delete_eq. }
  simpl in Harr. case_bool_decide; [|done]. injection Harr as <-.
  rewrite (add_bulk_event_new _ s) by done. simpl.
  split; [apply lookup_insert_eq|].
  exists (length (threads w1)). split; [|split].
  - rewrite Hlen. apply lookup_lt_Some in Hi. lia.
  - apply lookup_insert_eq.
  - rewrite lookup_app_r by done. by rewrite Nat.sub_diag.
Qed.

Lemma late_event_opens_new_window_witness :
  let late := click "bulk" "J1" 3 in
  let w2 := (add_bulk_event (JStr "J1") late (with_clock 130 after_j1)).2 in
  bulk_events w2 !! KStr "J1" = Some [late] ∧
  ∃ j, j ≠ 0 ∧ bulk_timers w2 !! KStr "J1" = Some j ∧
       threads w2 !! j = Some (Timer 120 (SStr "J1") 130 false false).
Proof.
  intros late w2.
  apply (late_event_opens_new_window env0
           (default boot (exec env0 (take 3 sched_j1) boot)) 120 0
           (Timer 120 (SStr "J1") 0 false false) after_j1
           130 (JStr "J1") (SStr "J1") late w2).
  - exists boot, (take 3 sched_j1). split; [by repeat split|].
    vm_compute. reflexivity.
  - vm_compute. reflexivity.
  - vm_compute. reflexivity.
  - reflexivity.
  - reflexivity.
  - vm_compute. reflexivity.
Defined.

(** ** X4: flushing twice *)

(** X4. A flush of a key that was just flushed finds nothing: it returns
    normally, calls no exporter, writes no file and leaves both
    dictionaries and the timers as they are; all it adds to the trace is
    the empty [Detach]. *)
Theorem second_flush_exports_nothing E s w :
  let w1 := (export_bulk_events E s w).2 in
  export_bulk_events E s w1 =
  (Ok tt, with_trace (Detach (key_of s) [] :: trace w1) w1).
Proof.
  intros w1. subst w1.
  destruct (export_bulk_events_shape E s w) as (r & f & tr & ->).
  cbn [snd]. rewrite export_bulk_events_absent
    by (simpl; apply lookup_delete_eq).
  cbn [bulk_events bulk_timers threads clock fs consumer_closed
       sfmc_access_token trace].
  rewrite lookup_delete_eq.
  rewrite !(delete_id (delete _ _)) by apply lookup_delete_eq.
  reflexivity.
Qed.

(** ** X5: the exporter is never called with nothing *)

Lemma exports_nonempty_step E l w w' :
  Inv w → step E l w = Some w' →
  exports_nonempty (trace w) → exports_nonempty (trace w').
Proof.
  intros HI Hstep Hne journey_id events.
  destruct l as [t jid event_data|t i].
  - simpl in Hstep. case_bool_decide; [|done]. injection Hstep as <-.
    destruct (add_bulk_event_trace jid event_data (with_clock t w))
      as [->|[k ->]]; [apply Hne|].
    rewrite elem_of_cons. intros [?|Hin]; [done|]. by apply (Hne journey_id).
  - destruct (step_fire_spec E t i w w' HI Hstep)
      as (tm & first & more & f & th & _ & _ & _ & _ & _ & _ & -> & _).
    simpl. rewrite !elem_of_cons.
    intros [[= _ ->]|[?|Hin]]; [done|done|]. by apply (Hne journey_id).
Qed.

(** X5. In every reachable state, each call of the exporter on the trace
    was made with a non-empty list: the [events[0]] of [generate_csv]
    never fails on a flush. *)
Theorem exporter_never_called_empty E w journey_id events :
  reachable E w →
  GenerateCsv journey_id events ∈ trace w →
  events ≠ [].
Proof.
  intros (w0 & sched & Hinit & Hexec).
  assert (Inv w0) as HI by (by apply Inv_initial).
  assert (exports_nonempty (trace w0)) as Hne.
  { destruct Hinit as (_ & _ & _ & ->). intros ? ? Hin.
    by apply elem_of_nil in Hin. }
  clear Hinit. revert w0 HI Hne Hexec.
  induction sched as [|l sched IH]; intros w0 HI Hne Hexec.
  - injection Hexec as <-. apply Hne.
  - simpl in Hexec. destruct (step E l w0) as [w1|] eqn:Hs; [|done].
    apply (IH w1); [by apply (Inv_step E l w0)| |done].
    by apply (exports_nonempty_step E l w0).
Qed.

Lemma exporter_never_called_empty_witness :
  [click "bulk" "J1" 0; click "bulk" "J1" 1; click "bulk" "J1" 2] ≠ [].
Proof.
  apply (exporter_never_called_empty env0 after_j1 (SStr "J1")).
  - exists boot, sched_j1. split; [by repeat split|]. vm_compute. reflexivity.
  - vm_compute. apply list_elem_of_here.
Defined.

(** ** X6 to X9: what the poll loop does with the other polls *)

(** X6. A bulk event whose [JourneyID] is a JSON array or object cannot
    index the dictionary: [add_bulk_event] raises [TypeError] before it
    changes anything, the exception leaves the loop, and the loop ends
    like on any other exception, with nothing buffered for the event and
    nothing after it processed. *)
Theorem unhashable_journey_id_ends_loop E before after d w w1 :
  py_get "type" d = JStr "bulk" →
  as_scalar (py_get "JourneyID" d) = None →
  for_each before (loop_body E) w = (Ok tt, w1) →
  consume_messages E (before ++ PollMessage (Json (JObj d)) :: after) w =
  (logging ERROR (MsgConsumeError TypeError) ;;
   consumer_close E ;; ret Stopped)
    (with_trace (Log INFO (MsgReceived (JObj d)) :: trace w1) w1).
Proof.
  intros Hty Hjid Hbefore.
  rewrite (consume_messages_app _ _ _ _ _ Hbefore).
  apply consume_messages_raise; [done|].
  rewrite loop_body_message. unfold handle_event. rewrite Hty. simpl.
  by rewrite add_bulk_event_unhashable.
Qed.

Lemma unhashable_journey_id_ends_loop_witness :
  let d := [("type", JStr "bulk"); ("JourneyID", JArr [JInt 1; JInt 2])] in
  let after := [PollMessage (Json (JObj (click "bulk" "J1" 0)))] in
  consume_messages env0 (PollMessage (Json (JObj d)) :: after) boot =
  (logging ERROR (MsgConsumeError TypeError) ;;
   consumer_close env0 ;; ret Stopped)
    (with_trace [Log INFO (MsgReceived (JObj d))] boot).
Proof.
  intros d after.
  apply (unhashable_journey_id_ends_loop env0 [] after d boot boot).
  - reflexivity.
  - reflexivity.
  - reflexivity.
Defined.

(** X7. A message that decodes to a JSON document other than an object
    (an array, a string, a number, [null]) has no [get]: [handle_event]
    raises [AttributeError] and the loop ends, the message logged as
    received and nothing else done with it. *)
Theorem non_object_document_ends_loop E before after j w w1 :
  (∀ d, j ≠ JObj d) →
  for_each before (loop_body E) w = (Ok tt, w1) →
  consume_messages E (before ++ PollMessage (Json j) :: after) w =
  (logging ERROR (MsgConsumeError AttributeError) ;;
   consumer_close E ;; ret Stopped)
    (with_trace (Log INFO (MsgReceived j) :: trace w1) w1).
Proof.
  intros Hj Hbefore.
  rewrite (consume_messages_app _ _ _ _ _ Hbefore).
  apply consume_messages_raise; [done|].
  rewrite loop_body_message.
  destruct j; try reflexivity. by destruct (Hj fields).
Qed.

Lemma non_object_document_ends_loop_witness :
  let after := [PollMessage (Json (JObj (click "stream" "J1" 0)))] in
  consume_messages env0
    (PollMessage (Json (JArr [JInt 1])) :: after) boot =
  (logging ERROR (MsgConsumeError AttributeError) ;;
   consumer_close env0 ;; ret Stopped)
    (with_trace [Log INFO (MsgReceived (JArr [JInt 1]))] boot).
Proof.
  intros after.
  apply (non_object_document_ends_loop env0 [] after (JArr [JInt 1])
           boot boot).
  - intros d. discriminate.
  - reflexivity.
Defined.

Lemma for_each_skip_idle E polls w :
  for_each polls (loop_body E) w =
  for_each (filter (λ msg, is_idle msg = false) polls) (loop_body E) w.
Proof.
  revert w. induction polls as [|msg polls IH]; intros w; [done|].
  destruct (is_idle msg) eqn:Hidle.
  - rewrite filter_cons_False by congruence.
    destruct msg; try discriminate. cbn [for_each]. unfold bind.
    change (loop_body E PollNone w) with (@Ok unit tt, w). apply IH.
  - rewrite filter_cons_True by done. cbn [for_each]. unfold bind.
    destruct (loop_body E msg w) as [[[]|x] w1]; [apply IH|done].
Qed.

(** X8. Polls that time out without a message change nothing: the loop
    run against a list of polls ends in the same state, with the same
    outcome, as run against the list without its empty polls. *)
Theorem empty_polls_change_nothing E polls w :
  consume_messages E polls w =
  consume_messages E (filter (λ msg, is_idle msg = false) polls) w.
Proof. unfold consume_messages. by rewrite for_each_skip_idle. Qed.

(** X9. A poll that carries a broker error.  If the error is the end of a
    partition the loop logs it at DEBUG level and goes on with the polls
    that follow.  Any other error is raised as [KafkaException] and ends
    the loop: it is logged at ERROR level, the consumer is closed and the
    polls that follow are not processed.  Should the class lack the
    attribute [_PARTITION_EOF], every error poll ends the loop, by
    [AttributeError]. *)
Theorem broker_error_poll E before after code w w1 :
  for_each before (loop_body E) w = (Ok tt, w1) →
  let run := consume_messages E (before ++ PollError code :: after) w in
  let stop e :=
    (logging ERROR (MsgConsumeError e) ;; consumer_close E ;; ret Stopped)
      w1 in
  match partition_eof E with
  | None => run = stop AttributeError
  | Some eof =>
      if (code =? eof)%Z
      then run = consume_messages E after
                   (with_trace (Log DEBUG MsgEndOfPartition :: trace w1) w1)
      else run = stop (KafkaException code)
  end.
Proof.
  intros Hbefore run stop. subst run stop.
  rewrite (consume_messages_app _ _ _ _ _ Hbefore).
  destruct (partition_eof E) as [eof|] eqn:Heof.
  - destruct (code =? eof)%Z eqn:Hcode.
    + change (PollError code :: after) with ([PollError code] ++ after).
      apply consume_messages_app. rewrite for_each_one. simpl.
      by rewrite Heof, Hcode.
    + apply consume_messages_raise; [done|]. simpl. by rewrite Heof, Hcode.
  - apply consume_messages_raise; [done|]. simpl. by rewrite Heof.
Qed.

Lemma broker_error_poll_witness :
  let after := [PollMessage (Json (JObj (click "bulk" "J1" 0)))] in
  consume_messages env0 (PollError (-185) :: after) boot =
  (logging ERROR (MsgConsumeError (KafkaException (-185))) ;;
   consumer_close env0 ;; ret Stopped) boot ∧
  consume_messages env0 (PollError (-191) :: after) boot =
  consume_messages env0 after
    (with_trace [Log DEBUG MsgEndOfPartition] boot).
Proof.
  intros after. split.
  - exact (broker_error_poll env0 [] after (-185) boot boot eq_refl).
  - exact (broker_error_poll env0 [] after (-191) boot boot eq_refl).
Defined.

(** ** X10: shutdown and the open windows *)

(** X10. The signal handler does not flush: whatever the state, it leaves
    both dictionaries and the timers as they are, calls no exporter and
    writes no file (it only removes files). *)
Theorem shutdown_flushes_nothing E w :
  let w' := (signal_handler E w).2 in
  bulk_events w' = bulk_events w ∧
  bulk_timers w' = bulk_timers w ∧
  threads w' = threads w ∧
  (∀ k, exports_of k (trace w') = exports_of k (trace w)) ∧
  (∀ path c, fs w' !! path = Some c → fs w !! path = Some c).
Proof.
  unfold signal_handler, consumer_close, os_unlink, sys_exit.
  unfold bind, gets, emit, act, raise. simpl.
  destruct (consumer_closed w), (close_raises_when_closed E); simpl;
    repeat (case_bool_decide; simpl);
    (repeat split; [done..|]);
    intros path c Hc;
    repeat (apply lookup_delete_Some in Hc as [_ Hc]); exact Hc.
Qed.

(** ** X11 and X12: the artifact of a window with uneven events *)


(** An export that can open its path, down to the loop over the rows. *)
Lemma generate_csv_cons E s first rest w :
  can_open E (csv_path s) = true →
  generate_csv E s (first :: rest) w =
  match for_each (first :: rest) (writerow (csv_path s) (keys first))
          (with_fs (<[csv_path s := CsvFile [HeaderLine (keys first)]]> (fs w))
             (with_trace (GenerateCsv s (first :: rest) :: trace w) w))
  with
  | (Ok _, v) => (Ok (csv_path s), v)
  | (Raise e, v) => (Raise e, v)
  end.
Proof.
  intros Hopen. unfold generate_csv.
  unfold bind at 1. unfold emit at 1, act at 1.
  unfold bind at 1, open_w. rewrite Hopen. unfold act at 1.
  unfold bind at 1, write_line at 1, act at 1. unfold bind at 1.
  cbn [fs with_fs with_trace]. rewrite alter_insert_eq. cbn [append_line app].
  match goal with |- context [with_fs ?a (with_fs ?b ?c)] =>
    change (with_fs a (with_fs b c)) with (with_fs a c) end.
  match goal with |- context [for_each ?l ?b ?v] =>
    destruct (for_each l b v) as [[[]|x] v2] end; reflexivity.
Qed.



Lemma for_each_writerow_insert path fieldnames events :
  ∀ ls, ∃ more, ∀ f0 w,
    fs w = <[path := CsvFile ls]> f0 →
    fs (for_each events (writerow path fieldnames) w).2
    = <[path := CsvFile (ls ++ more)]> f0.
Proof.
  induction events as [|e events IH]; intros ls.
  - exists []. intros f0 w Hfs. by rewrite app_nil_r.
  - destruct (dict_to_list fieldnames e) as [cells|x] eqn:Hd.
    + destruct (IH (ls ++ [DataLine cells])) as (more & Hmore).
      exists (DataLine cells :: more). intros f0 w Hfs.
      cbn [for_each]. unfold bind. unfold writerow at 1. rewrite Hd.
      unfold write_line, act. rewrite (Hmore f0).
      * by rewrite <- app_assoc.
      * simpl. by rewrite Hfs, alter_insert_eq.
    + exists []. intros f0 w Hfs.
      cbn [for_each]. unfold bind. unfold writerow at 1. rewrite Hd.
      by rewrite app_nil_r.
Qed.

(** Whatever the events, an export that can open its path replaces the
    file at that path and touches no other. *)
Lemma generate_csv_insert E s events :
  can_open E (csv_path s) = true →
  ∃ c, ∀ w, fs (generate_csv E s events w).2 = <[csv_path s := c]> (fs w).
Proof.
  intros Hopen. destruct events as [|first rest].
  - exists (CsvFile []). intros w. unfold generate_csv.
    unfold bind at 1. unfold emit at 1, act at 1.
    unfold bind at 1, open_w. by rewrite Hopen.
  - destruct (for_each_writerow_insert (csv_path s) (keys first)
                (first :: rest) [HeaderLine (keys first)]) as (more & Hmore).
    exists (CsvFile ([HeaderLine (keys first)] ++ more)). intros w.
    rewrite generate_csv_cons by done.
    match goal with |- context [for_each ?l ?b ?v] =>
      pose proof (Hmore (fs w) v eq_refl) as Hv;
      destruct (for_each l b v) as [[[]|x] v2] end; exact Hv.
Qed.

(** X12. The path of an artifact depends on the text of the key only, and
    each export opens it for writing anew: of two exports to the same path
    the later one leaves the files exactly as if the earlier one had never
    run.  This holds for two windows of one key as for two keys that print
    alike, such as the number 1 and the string "1". *)
Theorem later_export_overwrites E s1 s2 events1 events2 w :
  csv_path s1 = csv_path s2 →
  can_open E (csv_path s2) = true →
  fs (generate_csv E s2 events2 (generate_csv E s1 events1 w).2).2 =
  fs (generate_csv E s2 events2 w).2.
Proof.
  intros Hpath Hopen.
  destruct (generate_csv_insert E s2 events2 Hopen) as (c2 & H2).
  destruct (generate_csv_insert E s1 events1) as (c1 & H1);
    [by rewrite Hpath|].
  rewrite !H2, H1, Hpath. apply insert_insert_eq.
Qed.

Lemma later_export_overwrites_witness :
  key_of (SInt 1) ≠ key_of (SStr "1") ∧
  fs (generate_csv env0 (SStr "1") [click "bulk" "1" 2]
        (generate_csv env0 (SInt 1) [click "bulk" "J" 1] boot).2).2 =
  fs (generate_csv env0 (SStr "1") [click "bulk" "1" 2] boot).2.
Proof.
  split; [discriminate|].
  apply (later_export_overwrites env0 (SInt 1) (SStr "1")).
  - vm_compute. reflexivity.
  - reflexivity.
Defined.

(** ** X13 and X14: the SFMC token *)

Lemma authenticate_granted response tok w :
  granted response = Some tok →
  authenticate_with_sfmc response w =
  (inr tt,
   with_trace (Print "SFMC access token obtained successfully" :: trace w)
     (with_sfmc_access_token tok w)).
Proof.
  destruct response as [err|status err|status repr [err|tok']]; simpl;
    try discriminate.
  destruct (status =? 200)%Z; [|discriminate]. by intros [= <-].
Qed.

Lemma authenticate_refused response w :
  granted response = None →
  ∃ e, authenticate_with_sfmc response w = (inl e, w).
Proof.
  destruct response as [err|status err|status repr [err|tok']]; simpl;
    eauto; destruct (status =? 200)%Z; eauto; discriminate.
Qed.

Lemma renew_app ticks1 ticks2 w :
  renew_sfmc_token_periodically (ticks1 ++ ticks2) w =
  renew_sfmc_token_periodically ticks2
    (renew_sfmc_token_periodically ticks1 w).
Proof.
  revert w. induction ticks1 as [|r ticks1 IH]; intros w; [done|].
  simpl. destruct (authenticate_with_sfmc r w) as [[e|[]] w1]; apply IH.
Qed.

Lemma renew_all_refused ticks w :
  Forall (λ r, granted r = None) ticks →
  sfmc_access_token (renew_sfmc_token_periodically ticks w)
  = sfmc_access_token w.
Proof.
  revert w. induction ticks as [|r ticks IH]; intros w Hall; [done|].
  apply Forall_cons in Hall as [Hr Hall]. simpl.
  destruct (authenticate_refused r w Hr) as (e & ->).
  by rewrite IH.
Qed.

(** X13. The renewal loop survives every failed renewal and a failed
    renewal leaves the token alone: after any number of ticks the token is
    the one granted by the last tick that was granted one, and the token
    from before if none was.  The loop touches neither the dictionaries
    nor the files. *)
Theorem renewal_keeps_last_granted_token ticks w :
  let w' := renew_sfmc_token_periodically ticks w in
  (Forall (λ r, granted r = None) ticks →
   sfmc_access_token w' = sfmc_access_token w) ∧
  (∀ before r tok after,
     ticks = before ++ r :: after → granted r = Some tok →
     Forall (λ r, granted r = None) after →
     sfmc_access_token w' = tok) ∧
  bulk_events w' = bulk_events w ∧ bulk_timers w' = bulk_timers w ∧
  threads w' = threads w ∧ fs w' = fs w.
Proof.
  intros w'. subst w'. split; [apply renew_all_refused|]. split.
  - intros before r tok after -> Hr Hafter.
    rewrite renew_app. simpl.
    rewrite (authenticate_granted r tok) by done.
    by rewrite renew_all_refused.
  - revert w. induction ticks as [|r ticks IH]; intros w; [done|].
    simpl. destruct (granted r) as [tok|] eqn:Hr.
    + rewrite (authenticate_granted r tok) by done.
      destruct (IH (with_trace
        (Print "SFMC access token obtained successfully" :: trace w)
        (with_sfmc_access_token tok w))) as (-> & -> & -> & ->). done.
    + destruct (authenticate_refused r w Hr) as (e & ->).
      destruct (IH (with_trace
        (Print ("Error renewing SFMC access token: " +:+ e) :: trace w) w))
        as (-> & -> & -> & ->). done.
Qed.

Lemma renewal_keeps_last_granted_token_witness :
  sfmc_access_token
    (renew_sfmc_token_periodically
       [ AuthJson 200 "{...}" (inr (Some "t1"));
         AuthUnreachable "timed out";
         AuthJson 401 "{'error': 'invalid_client'}" (inl "") ] boot)
  = Some "t1".
Proof.
  destruct (renewal_keeps_last_granted_token
              [ AuthJson 200 "{...}" (inr (Some "t1"));
                AuthUnreachable "timed out";
                AuthJson 401 "{'error': 'invalid_client'}" (inl "") ] boot)
    as (_ & H & _).
  apply (H [] (AuthJson 200 "{...}" (inr (Some "t1"))) (Some "t1")
           [ AuthUnreachable "timed out";
             AuthJson 401 "{'error': 'invalid_client'}" (inl "") ]).
  - reflexivity.
  - reflexivity.
  - repeat constructor.
Defined.

(** X14. The forwarder reads the token when it posts: a stream event
    handled after a granted renewal is posted with the renewed token, not
    with the one in force when the consumer started. *)
Theorem forwarder_uses_renewed_token E response tok d w :
  granted response = Some tok →
  py_get "type" d = JStr "stream" →
  let w1 := (authenticate_with_sfmc response w).2 in
  ∃ logged,
    trace (handle_event E (JObj d) w1).2 =
      logged ++ HttpPost tok (JObj d) :: trace w1 ∧
    Forall (λ e, ∃ lvl m, e = Log lvl m) logged.
Proof.
  intros Hr Hty w1. subst w1.
  rewrite (authenticate_granted response tok) by done. cbn [snd].
  unfold handle_event. rewrite Hty. simpl.
  destruct (send_to_sfmc_frame E (JObj d)
    (with_trace (Print "SFMC access token obtained successfully" :: trace w)
       (with_sfmc_access_token tok w)))
    as (_ & _ & _ & _ & logged & Htr & Hlog).
  exists logged. split; [exact Htr|exact Hlog].
Qed.

Lemma forwarder_uses_renewed_token_witness :
  let d := click "stream" "J1" 0 in
  let w1 := (authenticate_with_sfmc
               (AuthJson 200 "{...}" (inr (Some "t2"))) boot).2 in
  ∃ logged,
    trace (handle_event env0 (JObj d) w1).2 =
      logged ++ HttpPost (Some "t2") (JObj d) :: trace w1 ∧
    Forall (λ e, ∃ lvl m, e = Log lvl m) logged.
Proof.
  intros d w1.
  apply (forwarder_uses_renewed_token env0
           (AuthJson 200 "{...}" (inr (Some "t2"))) (Some "t2") d boot).
  - reflexivity.
  - reflexivity.
Defined.

(** ** X15: no window without a pending flush *)

(** X15. In every reachable state the two dictionaries have the same
    keys, no buffer is empty, and each buffer has its flush pending: the
    timer registered for its key exists, is still scheduled, and carries
    that key as the argument of its callback. *)
Theorem open_window_has_scheduled_timer E w k :
  reachable E w →
  (is_Some (bulk_timers w !! k) ↔ is_Some (bulk_events w !! k)) ∧
  ∀ buf, bulk_events w !! k = Some buf →
         buf ≠ [] ∧
         ∃ i tm, bulk_timers w !! k = Some i ∧ threads w !! i = Some tm ∧
                 live tm ∧ key_of (t_args tm) = k.
Proof.
  intros Hr. apply Inv_reachable in Hr. split; [apply (inv_dom w Hr)|].
  intros buf Hbuf. by destruct (Inv_open w k buf Hr Hbuf) as (_ & ? & ?).
Qed.

Lemma open_window_has_scheduled_timer_witness :
  ∃ i tm, bulk_timers open_j1 !! KStr "J1" = Some i ∧
          threads open_j1 !! i = Some tm ∧
          live tm ∧ key_of (t_args tm) = KStr "J1".
Proof.
  destruct (open_window_has_scheduled_timer env0 open_j1 (KStr "J1"))
    as [_ H].
  - exists boot, [Arrive 0 (JStr "J1") (click "bulk" "J1" 0)].
    split; [by repeat split|]. vm_compute. reflexivity.
  - destruct (H [click "bulk" "J1" 0]) as [_ Ht]; [|exact Ht].
    vm_compute. reflexivity.
Defined.

(** ** X16: a null key *)

(** X16. [get] answers [None] for a [JourneyID] that is absent and for
    one that is JSON [null] alike, so bulk events of either kind share the
    window of key [None]: handled one after the other where that window is
    not open, they end up in one buffer, in their order. *)
Theorem null_and_missing_journey_id_share_window E d1 d2 w :
  py_get "type" d1 = JStr "bulk" →
  py_get "type" d2 = JStr "bulk" →
  dict_get "JourneyID" d1 = Some JNull →
  dict_get "JourneyID" d2 = None →
  bulk_events w !! KNone = None →
  let w1 := (handle_event E (JObj d1) w).2 in
  let w2 := (handle_event E (JObj d2) w1).2 in
  bulk_events w2 !! KNone = Some [d1; d2] ∧
  length (threads w2) = S (length (threads w)).
Proof.
  intros Hty1 Hty2 Hj1 Hj2 Hb. simpl.
  assert (py_get "JourneyID" d1 = JNull) as Hn1.
  { unfold py_get. by rewrite Hj1. }
  assert (py_get "JourneyID" d2 = JNull) as Hn2.
  { unfold py_get. by rewrite Hj2. }
  unfold handle_event. rewrite Hty1, Hty2, Hn1, Hn2. simpl.
  rewrite (add_bulk_event_new JNull SNone d1 w eq_refl Hb). cbn [snd].
  rewrite (add_bulk_event_open JNull SNone d2 [d1]);
    [|done|apply lookup_insert_eq].
  simpl. rewrite lookup_insert_eq, length_app. simpl. split; [done|lia].
Qed.

Lemma null_and_missing_journey_id_share_window_witness :
  let d1 := [("type", JStr "bulk"); ("JourneyID", JNull)] in
  let d2 := anonymous_click 1 in
  bulk_events
    (handle_event env0 (JObj d2) (handle_event env0 (JObj d1) boot).2).2
  !! KNone = Some [d1; d2].
Proof.
  intros d1 d2.
  apply (null_and_missing_journey_id_share_window env0 d1 d2 boot).
  - reflexivity.
  - reflexivity.
  - reflexivity.
  - reflexivity.
  - reflexivity.
Defined.
